(** * hydra-modeler: the hydration engine and its model registry

    A shallow embedding of [src/core/main.ts].  JavaScript values, plain
    objects and [Map]s are modelled in the first part; the registry
    ([HydraModeler]) lives in a store of heap cells, because its [Map]s are
    mutated in place and shared by reference; the hydrator ([Hydrator]) is
    written in a state-and-exception monad over that store. *)

From Stdlib Require Import ZArith Ascii.
From stdpp Require Import gmap strings list sorting.

Open Scope string_scope.
Open Scope list_scope.

Set Warnings "-register-all,-clear-no-such-hyp".

(** ** JavaScript values found in flat rows

    Flat rows hold scalars.  A [VNum] stands for a number other than [NaN]
    (negative zero is identified with zero, which [===], [SameValueZero] and
    truthiness all do as well); [VNaN] is kept apart since [NaN !== NaN]
    whereas a [Map] finds a [NaN] key again. *)

Inductive JsVal :=
| VUndefined
| VNull
| VBool (b : bool)
| VNum (n : Z)
| VNaN
| VStr (s : string).

#[global] Instance JsVal_eq_dec : EqDecision JsVal.
Proof. solve_decision. Defined.

(** [!v] is [negb (truthy v)]. *)
Definition truthy (v : JsVal) : bool :=
  match v with
  | VUndefined | VNull | VNaN => false
  | VBool b => b
  | VNum n => negb (n =? 0)%Z
  | VStr s => negb (String.eqb s "")
  end.

(** [v == null]. *)
Definition nullish (v : JsVal) : bool :=
  match v with
  | VUndefined | VNull => true
  | _ => false
  end.

(** [a === b]. *)
Definition strict_eq (a b : JsVal) : bool :=
  match a, b with
  | VNaN, _ | _, VNaN => false
  | _, _ => bool_decide (a = b)
  end.

(** The key comparison of [Map.prototype.get/set/has]. *)
Definition same_value_zero (a b : JsVal) : bool :=
  match a, b with
  | VNaN, VNaN => true
  | _, _ => strict_eq a b
  end.

(** ** Insertion-ordered dictionaries

    A JavaScript [Map] iterates in first-insertion order, and [set] on a key
    that is present replaces the value where it stands.  The own string
    properties of a plain object behave the same way for the keys that occur
    here (column names, attribute names, aliases).  Keys are compared with
    [decide], which on [JsVal] is [SameValueZero] (see
    [same_value_zero_decide]). *)

Abbreviation dict K V := (list (K * V)).

Section dict.
Context {K V : Type} `{EqDecision K}.

Fixpoint dict_get (d : dict K V) (k : K) : option V :=
  match d with
  | [] => None
  | (k', v) :: d' => if decide (k' = k) then Some v else dict_get d' k
  end.

Definition dict_has (d : dict K V) (k : K) : bool :=
  match dict_get d k with Some _ => true | None => false end.

Fixpoint dict_set (d : dict K V) (k : K) (v : V) : dict K V :=
  match d with
  | [] => [(k, v)]
  | (k', v') :: d' =>
      if decide (k' = k) then (k', v) :: d' else (k', v') :: dict_set d' k v
  end.

Definition dict_keys (d : dict K V) : list K := d.*1.
Definition dict_values (d : dict K V) : list V := d.*2.
End dict.

(** [bucket.push(x)] on the array stored under [k], creating it when absent. *)
Definition dict_push {K V : Type} `{EqDecision K}
    (d : dict K (list V)) (k : K) (x : V) : dict K (list V) :=
  dict_set d k (default [] (dict_get d k) ++ [x]).

(** The distinct elements of a list, each at its first occurrence. *)
Fixpoint first_seen {K : Type} `{EqDecision K} (l : list K) : list K :=
  match l with
  | [] => []
  | x :: l' => x :: filter (λ y, y ≠ x) (first_seen l')
  end.

(** The dictionary that holds, for each key of [ks] in order, [f] of it. *)
Definition tabulate {K V : Type} (f : K → V) (ks : list K) : dict K V :=
  (λ k, (k, f k)) <$> ks.

(** ** Flat rows *)

(** A flat row: its own enumerable properties, in [Object.keys] order. *)
Abbreviation Row := (dict string JsVal).

(** [row[k]] *)
Definition row_get (r : Row) (k : string) : JsVal :=
  default VUndefined (dict_get r k).

(** [Object.prototype.hasOwnProperty.call(r, k)]; also [k in r], the keys
    asked for all contain a dot and so are no property of [Object.prototype]. *)
Definition has_own (r : Row) (k : string) : bool := dict_has r k.

(** The template [`${a}.${b}`]. *)
Definition dotted (a b : string) : string := a +:+ "." +:+ b.

(** ** Errors *)

Inductive HydraError :=
| SchemaModelNotFoundError (modelName : string)
| NodeModelNotFoundError (modelName : string)
| AssociationNotDeclaredError (sourceModel targetOrAlias : string)
| BelongsToManyThroughModelMissingError (sourceModel childModel : string)
| SchemaAliasMissingError (aliasIn nodeModel : string) (available : list string)
| HasManyMissingAliasError (sourceModel targetModel : string)
| ThroughModelNotRegisteredError (throughModel sourceModel targetModel : string)
| ModelNotRegisteredError (modelName : string)
| InternalCloneModelMissingError (modelName : string)
| PrefixedPrimaryKeyNotFoundInFlatRowsError (prefix primaryKey : string)
| AllFlatRowsMustHaveSamePropertiesError
| ModelIsMissingAliasError (model : string).

Inductive Res (A : Type) :=
| Ok (a : A)
| Throw (e : HydraError).
Arguments Ok {A} a.
Arguments Throw {A} e.

(** ** Models as the hydrator sees them *)

(** What [HydraModel.filterValidAttributes] looks at in an attribute
    descriptor: nothing for [null], [undefined] and primitives, and
    [value.type?.constructor?.name] for an object. *)
Inductive AttrValue :=
| AttrNullish
| AttrPrimitive
| AttrObject (typeConstructorName : option string).

(** [HydraModel._attributes] is a plain object, or, after the constructor
    has added a missing primary key, the [Map] it built for the test. *)
Inductive Attributes :=
| PlainObject (entries : dict string AttrValue)
| MapObject (entries : dict string AttrValue).

(** [Object.entries] and [Object.keys]: a [Map] has no own enumerable
    property. *)
Definition Object_entries (a : Attributes) : dict string AttrValue :=
  match a with
  | PlainObject e => e
  | MapObject _ => []
  end.

Definition Object_keys (a : Attributes) : list string :=
  dict_keys (Object_entries a).

Definition loc := positive.

Record IHydrationModelWithAssociations := {
  name : string;
  attributes : Attributes;
  primaryKey : string;
  associations : loc  (* the Map of this model's associations *)
}.

(** ** Row grouping: [Hydrator.groupRowsByPK] *)

(** The identity of a row under an alias: the value of its column
    [{alias}.{primaryKey}]. *)
Definition identity (model : IHydrationModelWithAssociations) (alias : string)
    (row : Row) : JsVal :=
  row_get row (dotted alias (primaryKey model)).


Definition groupRowsByPK (rows : list Row)
    (model : IHydrationModelWithAssociations) (alias : string)
    : Res (dict JsVal (list Row)) :=
  if decide (alias = "") then Throw (ModelIsMissingAliasError (name model))
  else
    match rows with
    | [] => Ok []
    | first :: _ =>
        let primaryKeyName := dotted alias (primaryKey model) in
        if negb (has_own first primaryKeyName) then
          Throw (PrefixedPrimaryKeyNotFoundInFlatRowsError alias (primaryKey model))
        else
          Ok (foldl (λ map row,
                let pkValue := row_get row (dotted alias (primaryKey model)) in
                if negb (truthy pkValue) then map
                else
                  let group := default [] (dict_get map pkValue) in
                  dict_set map pkValue (group ++ [row]))
               [] rows)
    end.


(** ** Hydrated objects and schema nodes *)

Inductive Out :=
| OVal (v : JsVal)
| OObj (fields : dict string Out)
| OArr (items : list Out).

(** The [parents] record handed to [postProcess]: alias to hydrated object. *)
Abbreviation Parents := (dict string Out).

(** [v != null] on a hydrated value. *)
Definition out_nullish (o : Out) : bool :=
  match o with
  | OVal v => nullish v
  | _ => false
  end.

(** A schema node.  [children] absent is the empty list (the code reads
    [node.children ?? []] everywhere); [postProcess] is a pure callback. *)
Inductive HydrationSchemaNode :=
  SchemaNode {
    model : string;
    alias : option string;
    postProcess : option (Out → Parents → Out);
    children : list HydrationSchemaNode
  }.

(** [a || b] on an optional string and a string. *)
Definition or_else (a : option string) (b : string) : string :=
  match a with
  | Some s => if decide (s = "") then b else s
  | None => b
  end.

(** [Hydrator.alias] *)
Definition Hydrator_alias (schema : HydrationSchemaNode) : string :=
  or_else (alias schema) (model schema).

(** ** Associations *)

Inductive AssociationType := BelongsTo | HasOne | HasMany | BelongsToMany.

#[global] Instance AssociationType_eq_dec : EqDecision AssociationType.
Proof. solve_decision. Defined.

Record Through := {
  through_model : IHydrationModelWithAssociations;
  through_alias : option string;
  through_foreignKey : string;
  through_otherKey : string
}.

Record HydraAssociation := {
  as_ : string;
  associationType : AssociationType;
  foreignKey : option string;
  source : IHydrationModelWithAssociations;
  sourceKey : string;
  target : IHydrationModelWithAssociations;
  targetKey : string;
  through : option Through
}.

(** The option objects of the association builder.  [belongsTo] and
    [hasOne] take the same shape. *)
Record CreateHydraDirectAssociation := {
  opt_as : option string;
  opt_foreignKey : option string;
  opt_sourceKey : option string;
  opt_targetKey : option string
}.

Record CreateHydraThrough := {
  opt_through_foreignKey : option string;
  opt_through_otherKey : option string;
  opt_through_as : option string
}.

Record CreateHydraBelongsToManyAssociation := {
  optm_as : option string;
  optm_through : option CreateHydraThrough;
  optm_sourceKey : option string;
  optm_targetKey : option string
}.

(** One call on the builder object [ab] that [associate] hands to its
    callback; the callback is the list of its calls, in order. *)
Inductive AssociationCall :=
| belongsTo (targetModelName : string) (options : CreateHydraDirectAssociation)
| hasOne (targetModelName : string) (options : CreateHydraDirectAssociation)
| hasMany (targetModelName : string) (hasManyAlias : string)
    (options : CreateHydraDirectAssociation)
| belongsToMany (targetModelName throughModelName : string)
    (options : CreateHydraBelongsToManyAssociation).

(** ** [HydraModel] *)

Record HydraModel := {
  _name : string;
  _attributes : Attributes;
  _primaryKey : string
}.

(** [HydraModel.filterValidAttributes] keeps an entry unless its value is
    an object whose [type.constructor.name] is ['VIRTUAL']. *)
Definition keepsAttribute (value : AttrValue) : bool :=
  match value with
  | AttrNullish | AttrPrimitive => true
  | AttrObject n => negb (bool_decide (n = Some "VIRTUAL"))
  end.

Definition filterValidAttributes (attrs : Attributes) : dict string AttrValue :=
  filter (λ kv : string * AttrValue, keepsAttribute kv.2) (Object_entries attrs).

(** [new HydraModel(name, attributes, primaryKey)].  When the primary key is
    no key of the filtered attributes, [_attributes] becomes the [Map] built
    for the test, with the key added. *)
Definition new_HydraModel (name : string) (attrs : Attributes)
    (primaryKey : option string) : HydraModel :=
  let pk := default "code" primaryKey in
  let filtered := filterValidAttributes attrs in
  let mapAttributes := filtered in
  {| _name := name;
     _attributes :=
       if negb (dict_has mapAttributes pk)
       then MapObject (dict_set mapAttributes pk (AttrObject None))
       else PlainObject filtered;
     _primaryKey := pk |}.

(** ** The store

    [HydraModel] instances, association objects, [Map]s and [HydraModeler]
    instances are heap cells, addressed by reference.  The [Map]s of a
    registry hold references: [_models] to model instances, [_associations]
    to one inner [Map] per model, an inner [Map] to association objects. *)

Record HydraModelerOptions := {
  defaultPrimaryKey : option string;
  defaultForeignKeySuffix : option string
}.

Record HydraModeler := {
  _models : loc;
  _associations : loc;
  _options : HydraModelerOptions
}.

Inductive Cell :=
| CModel (m : HydraModel)
| CAssociation (a : HydraAssociation)
| CMap (entries : dict string loc)
| CModeler (m : HydraModeler).

Abbreviation Heap := (gmap loc Cell).

(** Reading a cell.  A JavaScript reference always leads to an object of
    its type; to stay total the readers give an empty object elsewhere. *)
Definition heap_map (h : Heap) (l : loc) : dict string loc :=
  match h !! l with Some (CMap m) => m | _ => [] end.

Definition heap_model (h : Heap) (l : loc) : HydraModel :=
  match h !! l with
  | Some (CModel m) => m
  | _ => {| _name := ""; _attributes := PlainObject []; _primaryKey := "" |}
  end.

Definition heap_modeler (h : Heap) (l : loc) : HydraModeler :=
  match h !! l with
  | Some (CModeler m) => m
  | _ => {| _models := l; _associations := l;
            _options := {| defaultPrimaryKey := None;
                           defaultForeignKeySuffix := None |} |}
  end.

Definition heap_association (h : Heap) (l : loc) : option HydraAssociation :=
  match h !! l with Some (CAssociation a) => Some a | _ => None end.

(** ** The monad of the methods: a store and a thrown error *)

Definition M (A : Type) : Type := Heap → Heap * Res A.

Definition ret {A} (a : A) : M A := λ h, (h, Ok a).
Definition throw {A} (e : HydraError) : M A := λ h, (h, Throw e).
Definition bind {A B} (m : M A) (k : A → M B) : M B :=
  λ h, match m h with
       | (h', Ok a) => k a h'
       | (h', Throw e) => (h', Throw e)
       end.

Notation "'let*' x ':=' m 'in' k" := (bind m (λ x, k))
  (at level 10, x pattern, m at level 100, k at level 200).

Definition lift {A} (r : Res A) : M A := λ h, (h, r).
Definition read {A} (f : Heap → A) : M A := λ h, (h, Ok (f h)).

(** [new ...]: a reference no cell of the store has. *)
Definition alloc (c : Cell) : M loc :=
  λ h, let l := fresh (dom h) in (<[l := c]> h, Ok l).

Definition write (l : loc) (c : Cell) : M unit :=
  λ h, (<[l := c]> h, Ok ()).

(** [xs.map(f)] and [for (const x of xs) out.push(f(x))] *)
Fixpoint mapM {A B} (f : A → M B) (xs : list A) : M (list B) :=
  match xs with
  | [] => ret []
  | x :: xs' =>
      let* y := f x in
      let* ys := mapM f xs' in
      ret (y :: ys)
  end.

Fixpoint forM_ {A} (f : A → M unit) (xs : list A) : M unit :=
  match xs with
  | [] => ret ()
  | x :: xs' => let* _ := f x in forM_ f xs'
  end.

(** [Map.prototype.get], [has] and [set] on a [Map] of the store *)
Definition Map_get (map : loc) (k : string) : M (option loc) :=
  read (λ h, dict_get (heap_map h map) k).

Definition Map_has (map : loc) (k : string) : M bool :=
  read (λ h, dict_has (heap_map h map) k).

Definition Map_set (map : loc) (k : string) (v : loc) : M unit :=
  λ h, (<[map := CMap (dict_set (heap_map h map) k v)]> h, Ok ()).

(** ** [HydraModeler] *)

(** [new HydraModeler(options)], [options] absent being [{}] *)
Definition new_HydraModeler (opts : HydraModelerOptions) : M loc :=
  let* models := alloc (CMap []) in
  let* assocs := alloc (CMap []) in
  alloc (CModeler
    {| _models := models;
       _associations := assocs;
       _options :=
         {| defaultPrimaryKey := Some (or_else (defaultPrimaryKey opts) "code");
            defaultForeignKeySuffix :=
              Some (or_else (defaultForeignKeySuffix opts) "Code") |} |}).

(** The getters [options], [defaultPrimaryKey] and
    [defaultForeignKeySuffix].  The constructor has filled both options;
    a missing one would print as [undefined] in a template. *)
Definition get_options (this : loc) : M HydraModelerOptions :=
  read (λ h, _options (heap_modeler h this)).

Definition get_defaultPrimaryKey (this : loc) : M string :=
  read (λ h, default "undefined" (defaultPrimaryKey (_options (heap_modeler h this)))).

Definition get_defaultForeignKeySuffix (this : loc) : M string :=
  read (λ h, default "undefined"
               (defaultForeignKeySuffix (_options (heap_modeler h this)))).

(** [ensureAssocMap] *)
Definition ensureAssocMap (this : loc) (modelName : string) : M loc :=
  let* outer := read (λ h, _associations (heap_modeler h this)) in
  let* map := Map_get outer modelName in
  match map with
  | Some map => ret map
  | None =>
      let* map := alloc (CMap []) in
      let* _ := Map_set outer modelName map in
      ret map
  end.

(** [_addModel] *)
Definition _addModel (this : loc) (name : string) (attrs : Attributes)
    (primaryKey : option string) : M unit :=
  let* models := read (λ h, _models (heap_modeler h this)) in
  let* present := Map_has models name in
  if negb present then
    let* model := alloc (CModel (new_HydraModel name attrs primaryKey)) in
    let* _ := Map_set models name model in
    let* outer := read (λ h, _associations (heap_modeler h this)) in
    let* inner := alloc (CMap []) in
    Map_set outer name inner
  else ret ().

(** [addModels(fn)], [fn] being the list of its [mb.add] calls *)
Definition addModels (this : loc)
    (adds : list (string * Attributes * option string)) : M unit :=
  forM_ (λ '(name, attrs, primaryKey), _addModel this name attrs primaryKey) adds.

(** [getModel(name, { noThrow })] *)
Definition getModel (this : loc) (name : string) (noThrow : bool)
    : M (option IHydrationModelWithAssociations) :=
  let* models := read (λ h, _models (heap_modeler h this)) in
  let* model := Map_get models name in
  match model with
  | None =>
      if negb noThrow then throw (ModelNotRegisteredError name) else ret None
  | Some model =>
      let* m := read (λ h, heap_model h model) in
      let* assocMap := ensureAssocMap this name in
      ret (Some {| name := _name m;
                   attributes := _attributes m;
                   primaryKey := _primaryKey m;
                   associations := assocMap |})
  end.

(** [getModel(name)], the overload that throws *)
Definition getModel_or_throw (this : loc) (name : string)
    : M IHydrationModelWithAssociations :=
  let* model := getModel this name false in
  match model with
  | Some model => ret model
  | None => throw (ModelNotRegisteredError name)
  end.

(** [getAssociations] and [getAssociation] *)
Definition getAssociations (this : loc) (modelName : string) : M loc :=
  ensureAssocMap this modelName.

Definition getAssociation (this : loc) (modelName associationName : string)
    : M (option HydraAssociation) :=
  let* map := getAssociations this modelName in
  let* entry := Map_get map associationName in
  match entry with
  | None => ret None
  | Some a => read (λ h, heap_association h a)
  end.

(** The four methods of the association builder: each resolves its models
    and pushes one association object. *)
Definition buildAssociation (this : loc) (sourceModelName : string)
    (call : AssociationCall) : M loc :=
  let* dpk := get_defaultPrimaryKey this in
  let* suffix := get_defaultForeignKeySuffix this in
  match call with
  | belongsTo targetModelName options =>
      let sourceKey := default dpk (opt_sourceKey options) in
      let targetKey := default dpk (opt_targetKey options) in
      let as' := default targetModelName (opt_as options) in
      let foreignKey := default (targetModelName +:+ suffix) (opt_foreignKey options) in
      let* source := getModel_or_throw this sourceModelName in
      let* target := getModel_or_throw this targetModelName in
      alloc (CAssociation
        {| as_ := as'; associationType := BelongsTo; foreignKey := Some foreignKey;
           source := source; sourceKey := sourceKey;
           target := target; targetKey := targetKey; through := None |})
  | hasOne targetModelName options =>
      let sourceKey := default dpk (opt_sourceKey options) in
      let targetKey := default dpk (opt_targetKey options) in
      let as' := default targetModelName (opt_as options) in
      let foreignKey := default (sourceModelName +:+ suffix) (opt_foreignKey options) in
      let* source := getModel_or_throw this sourceModelName in
      let* target := getModel_or_throw this targetModelName in
      alloc (CAssociation
        {| as_ := as'; associationType := HasOne; foreignKey := Some foreignKey;
           source := source; sourceKey := sourceKey;
           target := target; targetKey := targetKey; through := None |})
  | hasMany targetModelName hasManyAlias options =>
      let sourceKey := default dpk (opt_sourceKey options) in
      let targetKey := default dpk (opt_targetKey options) in
      if decide (hasManyAlias = "") then
        throw (HasManyMissingAliasError sourceModelName targetModelName)
      else
        let foreignKey :=
          default (sourceModelName +:+ suffix) (opt_foreignKey options) in
        let* source := getModel_or_throw this sourceModelName in
        let* target := getModel_or_throw this targetModelName in
        alloc (CAssociation
          {| as_ := hasManyAlias; associationType := HasMany;
             foreignKey := Some foreignKey;
             source := source; sourceKey := sourceKey;
             target := target; targetKey := targetKey; through := None |})
  | belongsToMany targetModelName throughModelName options =>
      let sourceKey := default dpk (optm_sourceKey options) in
      let targetKey := default dpk (optm_targetKey options) in
      let as' := default targetModelName (optm_as options) in
      let foreignKey :=
        default (sourceModelName +:+ suffix)
                (optm_through options ≫= opt_through_foreignKey) in
      let otherKey :=
        default (targetModelName +:+ suffix)
                (optm_through options ≫= opt_through_otherKey) in
      let* source := getModel_or_throw this sourceModelName in
      let* target := getModel_or_throw this targetModelName in
      let* throughModel := getModel this throughModelName true in
      match throughModel with
      | None =>
          throw (ThroughModelNotRegisteredError
                   throughModelName sourceModelName targetModelName)
      | Some throughModel =>
          alloc (CAssociation
            {| as_ := as'; associationType := BelongsToMany;
               foreignKey := Some foreignKey;
               source := source; sourceKey := sourceKey;
               target := target; targetKey := targetKey;
               through :=
                 Some {| through_model := throughModel;
                         through_alias :=
                           match optm_through options ≫= opt_through_as with
                           | Some a => if decide (a = "") then None else Some a
                           | None => None
                           end;
                         through_foreignKey := foreignKey;
                         through_otherKey := otherKey |} |})
      end
  end.

(** The registration loop that ends [associate]: an output name that the
    source model already has is skipped. *)
Definition registerAssociation (this : loc) (sourceModelName : string)
    (association : loc) : M unit :=
  let* mapModelAssociations := ensureAssocMap this sourceModelName in
  let* a := read (λ h, heap_association h association) in
  match a with
  | None => ret ()
  | Some a =>
      let* present := Map_has mapModelAssociations (as_ a) in
      if negb present then Map_set mapModelAssociations (as_ a) association
      else ret ()
  end.

(** [associate(sourceModelName, builderFn)], [builderFn] being the list of
    its calls on the builder *)
Definition associate (this : loc) (sourceModelName : string)
    (builderFn : list AssociationCall) : M unit :=
  let* associations := mapM (buildAssociation this sourceModelName) builderFn in
  forM_ (registerAssociation this sourceModelName) associations.

(** [wrap], the local helper of [cloneFromModeler] *)
Definition wrap (this : loc) (modelName : string)
    : M IHydrationModelWithAssociations :=
  let* models := read (λ h, _models (heap_modeler h this)) in
  let* outer := read (λ h, _associations (heap_modeler h this)) in
  let* m := Map_get models modelName in
  let* assocMap := Map_get outer modelName in
  match m, assocMap with
  | Some m, Some assocMap =>
      let* m := read (λ h, heap_model h m) in
      ret {| name := _name m;
             attributes := _attributes m;
             primaryKey := _primaryKey m;
             associations := assocMap |}
  | _, _ => throw (InternalCloneModelMissingError modelName)
  end.

(** The copy of one association made by [cloneFromModeler] *)
Definition cloneAssociation (this : loc) (srcName : string)
    (assoc : HydraAssociation) : M loc :=
  let* source := wrap this srcName in
  let* target := wrap this (name (target assoc)) in
  let* through :=
    match through assoc with
    | None => ret None
    | Some t =>
        let* m := wrap this (name (through_model t)) in
        ret (Some {| through_model := m;
                     through_alias := through_alias t;
                     through_foreignKey := through_foreignKey t;
                     through_otherKey := through_otherKey t |})
    end in
  alloc (CAssociation
    {| as_ := as_ assoc; associationType := associationType assoc;
       foreignKey := foreignKey assoc;
       source := source; sourceKey := sourceKey assoc;
       target := target; targetKey := targetKey assoc;
       through := through |}).

(** The body of the first loop of [cloneFromModeler]: a model is copied
    into [this._models] and given an empty [Map] of associations. *)
Definition cloneModelEntry (models assocs : loc) (entry : string * loc)
    : M unit :=
  let '(name, model) := entry in
  let* model := read (λ h, heap_model h model) in
  let* cloned := alloc (CModel (new_HydraModel (_name model)
                                  (_attributes model)
                                  (Some (_primaryKey model)))) in
  let* _ := Map_set models name cloned in
  let* inner := alloc (CMap []) in
  Map_set assocs name inner.

(** The body of the inner loop of the second loop: an association is
    copied into [clonedMap]. *)
Definition cloneAssociationEntry (this : loc) (srcName : string)
    (clonedMap : loc) (entry : string * loc) : M unit :=
  let '(as', assoc) := entry in
  let* assoc := read (λ h, heap_association h assoc) in
  match assoc with
  | None => ret ()
  | Some assoc =>
      let* entry := cloneAssociation this srcName assoc in
      Map_set clonedMap as' entry
  end.

(** The body of the second loop: the associations of a model are copied
    into a new [Map], which replaces the empty one. *)
Definition cloneAssociationMap (this assocs : loc) (entry : string * loc)
    : M unit :=
  let '(srcName, assocMap) := entry in
  let* clonedMap := alloc (CMap []) in
  let* entries := read (λ h, heap_map h assocMap) in
  let* _ := forM_ (cloneAssociationEntry this srcName clonedMap) entries in
  Map_set assocs srcName clonedMap.

(** [cloneFromModeler] *)
Definition cloneFromModeler (this source : loc) : M unit :=
  let* models := alloc (CMap []) in
  let* assocs := alloc (CMap []) in
  let* me := read (λ h, heap_modeler h this) in
  let* _ := write this (CModeler {| _models := models; _associations := assocs;
                                   _options := _options me |}) in
  let* sourceModels := read (λ h, heap_map h (_models (heap_modeler h source))) in
  let* _ := forM_ (cloneModelEntry models assocs) sourceModels in
  let* sourceAssociations :=
    read (λ h, heap_map h (_associations (heap_modeler h source))) in
  forM_ (cloneAssociationMap this assocs) sourceAssociations.

(** [new HydraModeler(from)]: the field initialisers, the copy of the
    options, then [cloneFromModeler]. *)
Definition new_HydraModeler_from (from : loc) : M loc :=
  let* models := alloc (CMap []) in
  let* assocs := alloc (CMap []) in
  let* opts := get_options from in
  let* this := alloc (CModeler {| _models := models; _associations := assocs;
                                 _options := opts |}) in
  let* _ := cloneFromModeler this from in
  ret this.

(** ** [Hydrator] *)

(** [key.split('.')[0]]: the part of [key] before its first dot *)
Fixpoint before_dot (key : string) : string :=
  match key with
  | EmptyString => ""
  | String c rest =>
      if Ascii.eqb c "."%char then "" else String c (before_dot rest)
  end.

(** [k.startsWith(p)] *)
Definition startsWith (k p : string) : bool := String.prefix p k.

(** The column prefixes of a row, as the [Set] built from them iterates. *)
Definition colPrefixes (row : Row) : list string :=
  first_seen (before_dot <$> dict_keys row).

(** [checkNode], the pre-order walk of [checkAllSchemaAliasesPresent] *)
Fixpoint checkNode (prefixes : list string) (node : HydrationSchemaNode)
    : Res unit :=
  match node with
  | SchemaNode nmodel nalias _ nchildren =>
      let a := or_else nalias nmodel in
      if negb (bool_decide (a ∈ prefixes)) then
        Throw (SchemaAliasMissingError a nmodel prefixes)
      else
        (fix checkChildren (cs : list HydrationSchemaNode) : Res unit :=
           match cs with
           | [] => Ok ()
           | child :: rest =>
               match checkNode prefixes child with
               | Ok _ => checkChildren rest
               | Throw e => Throw e
               end
           end) nchildren
  end.

(** [checkAllSchemaAliasesPresent] *)
Definition checkAllSchemaAliasesPresent (schema : HydrationSchemaNode)
    (flatRows : list Row) : Res unit :=
  match flatRows with
  | [] => Ok ()
  | row :: _ => checkNode (colPrefixes row) schema
  end.

(** The [BelongsToMany] branch keeps the rows of this parent that carry a
    child and no other child's join key. *)
Definition belongsToManyRelevantRows (rows : list Row)
    (parentPkValue : JsVal) (joinParentColumn childColumn joinChildColumn : string)
    : list Row :=
  filter (λ r : Row,
            (if negb (strict_eq (row_get r joinParentColumn) parentPkValue)
             then false
             else
               let childPk := row_get r childColumn in
               if nullish childPk then false
               else
                 let joinOther := row_get r joinChildColumn in
                 nullish joinOther || strict_eq joinOther childPk) = true)
         rows.

(** The grouping loop of the [BelongsToMany] branch *)
Definition groupByColumn (relevantRows : list Row) (childColumn : string)
    : dict JsVal (list Row) :=
  foldl (λ grouped r,
           let childPkVal := row_get r childColumn in
           match dict_get grouped childPkVal with
           | Some bucket => dict_set grouped childPkVal (bucket ++ [r])
           | None => dict_set grouped childPkVal [r]
           end)
        [] relevantRows.

(** The survivors of the [BelongsToMany] branch for an association with a
    join model, grouped by child key. *)
Definition belongsToManyGroups (suffix : string) (assoc : HydraAssociation)
    (t : Through) (alias childAlias : string) (row : Row) (rows : list Row)
    : dict JsVal (list Row) :=
  let parentSourceKey :=
    or_else (Some (sourceKey assoc)) (primaryKey (source assoc)) in
  let childTargetKey :=
    or_else (Some (targetKey assoc)) (primaryKey (target assoc)) in
  let parentPkValue := row_get row (dotted alias parentSourceKey) in
  let joinAlias := default (name (through_model t)) (through_alias t) in
  let joinToParentFK :=
    or_else (Some (through_foreignKey t)) (name (source assoc) +:+ suffix) in
  let joinToChildFK :=
    or_else (Some (through_otherKey t)) (name (target assoc) +:+ suffix) in
  let relevantRows :=
    belongsToManyRelevantRows rows parentPkValue
      (dotted joinAlias joinToParentFK)
      (dotted childAlias childTargetKey)
      (dotted joinAlias joinToChildFK) in
  groupByColumn relevantRows (dotted childAlias childTargetKey).

(** One turn of the loop over [node.children] in [hydrateModelRecursive]:
    [recurse] is [hydrateModelRecursive] on [child], [result] the object
    built so far, and the value is [result] after the turn. *)
Definition hydrateChild (recurse : list Row → Parents → M Out)
    (hydraBuilder : loc) (model : IHydrationModelWithAssociations)
    (alias : string) (row : Row) (rows : list Row) (parentsIn : Parents)
    (child : HydrationSchemaNode) (result : dict string Out)
    : M (dict string Out) :=
  let childAlias := Hydrator_alias child in
  let hasKeys :=
    existsb (λ r : Row,
               existsb (λ k, startsWith k (childAlias +:+ ".")) (dict_keys r))
            rows in
  if negb hasKeys then ret result
  else
    let '(SchemaNode childModel childAliasOption _ _) := child in
    let assocKey := or_else childAliasOption childModel in
    let* assoc := getAssociation hydraBuilder (name model) assocKey in
    match assoc with
    | None => throw (AssociationNotDeclaredError (name model) assocKey)
    | Some assoc =>
        let outputKey :=
          match childAliasOption with
          | None => as_ assoc
          | Some _ => childAlias
          end in
        let newParents := dict_set parentsIn alias (OObj result) in
        if decide (associationType assoc = BelongsToMany) then
          match through assoc with
          | None =>
              throw (BelongsToManyThroughModelMissingError
                       (name model) childModel)
          | Some t =>
              let* suffix := get_defaultForeignKeySuffix hydraBuilder in
              let grouped :=
                belongsToManyGroups suffix assoc t alias childAlias row rows in
              let* items :=
                mapM (λ group, recurse group newParents) (dict_values grouped) in
              ret (dict_set result outputKey (OArr items))
          end
        else
          let* grouped := lift (groupRowsByPK rows (target assoc) childAlias) in
          if decide (associationType assoc = HasMany) then
            let* items :=
              mapM (λ group, recurse group newParents) (dict_values grouped) in
            ret (dict_set result outputKey (OArr items))
          else
            match dict_values grouped with
            | firstGroup :: _ =>
                let* hydrated := recurse firstGroup newParents in
                ret (dict_set result outputKey hydrated)
            | [] => ret result
            end
    end.

(** [hydrateModelRecursive] *)
Fixpoint hydrateModelRecursive (hydraBuilder : loc) (node : HydrationSchemaNode)
    (rows : list Row) (parentsIn : Parents) {struct node} : M Out :=
  match node with
  | SchemaNode nmodel nalias npostProcess nchildren =>
      let* model := getModel hydraBuilder nmodel true in
      match model with
      | None => throw (NodeModelNotFoundError nmodel)
      | Some model =>
          let alias := or_else nalias nmodel in
          match rows with
          | [] => ret (OObj [])
          | row :: _ =>
              let result :=
                foldl (λ result attr,
                         let key := dotted alias attr in
                         if has_own row key
                         then dict_set result attr (OVal (row_get row key))
                         else result)
                      [] (Object_keys (attributes model)) in
              let* result :=
                (fix eachChild (cs : list HydrationSchemaNode)
                     (result : dict string Out) : M (dict string Out) :=
                   match cs with
                   | [] => ret result
                   | child :: rest =>
                       let* result :=
                         hydrateChild (hydrateModelRecursive hydraBuilder child)
                           hydraBuilder model alias row rows parentsIn
                           child result in
                       eachChild rest result
                   end) nchildren result in
              let newParents := dict_set parentsIn alias (OObj result) in
              let parentsStrict :=
                filter (λ kv : string * Out, out_nullish kv.2 = false) newParents in
              ret (match npostProcess with
                   | Some f => f (OObj result) parentsStrict
                   | None => OObj result
                   end)
          end
      end
  end.

(** [Hydrator.hydrate] *)
Definition Hydrator_hydrate (flatRows : list Row) (hydraBuilder : loc)
    (schema : HydrationSchemaNode) : M (list Out) :=
  let* _ := lift (checkAllSchemaAliasesPresent schema flatRows) in
  let rootAlias := Hydrator_alias schema in
  let* rootModel := getModel hydraBuilder (model schema) true in
  match rootModel with
  | None => throw (SchemaModelNotFoundError (model schema))
  | Some rootModel =>
      let* groups := lift (groupRowsByPK flatRows rootModel rootAlias) in
      mapM (λ group, hydrateModelRecursive hydraBuilder schema group [])
           (dict_values groups)
  end.

(** [Object.keys(row).sort().join('|')]: the default sort compares code
    units, which for the strings modelled here is [String.leb]. *)
Definition sortedKeys (row : Row) : string :=
  String.concat "|" (merge_sort (λ a b, String.leb a b) (dict_keys row)).

(** [allObjectsHaveSameProperties] *)
Definition allObjectsHaveSameProperties (rows : list Row) : bool :=
  match rows with
  | [] | [_] => true
  | first :: _ =>
      let referenceKeys := sortedKeys first in
      forallb (λ row, String.eqb (sortedKeys row) referenceKeys) rows
  end.

(** [HydraModeler.hydrate] *)
Definition hydrate (this : loc) (flatRows : list Row)
    (schema : HydrationSchemaNode) : M (list Out) :=
  if negb (allObjectsHaveSameProperties flatRows) then
    throw AllFlatRowsMustHaveSamePropertiesError
  else Hydrator_hydrate flatRows this schema.

(** ** Notions used to state the properties *)

(** A method call that leaves the store as it found it. *)
Definition preserves {A} (h : Heap) (m : M A) : Prop := ∃ r, m h = (h, r).

(** The model registered under a name, if any. *)
Definition registeredModel (h : Heap) (this : loc) (name : string)
    : option HydraModel :=
  heap_model h <$> dict_get (heap_map h (_models (heap_modeler h this))) name.

(** Every model is registered under its own name and has its [Map] of
    associations.  [_addModel] and [cloneFromModeler] make the two entries
    together, and no method removes one. *)
Definition registry_ok (h : Heap) (this : loc) : bool :=
  let me := heap_modeler h this in
  let outer := heap_map h (_associations me) in
  forallb (λ entry : string * loc,
             dict_has outer entry.1 &&
             bool_decide (_name (heap_model h entry.2) = entry.1))
          (heap_map h (_models me)).

(** A specification of a method call: from a store that satisfies [P], the
    call ends in a store and a result that satisfy [Q]. *)
Definition spec {A} (P : Heap → Prop) (m : M A) (Q : Res A → Heap → Prop) : Prop :=
  ∀ h h' r, P h → m h = (h', r) → Q r h'.

(** *** The shape of a registry in the store *)

Definition is_map (h : Heap) (l : loc) : bool :=
  match h !! l with Some (CMap _) => true | _ => false end.

Definition is_model (h : Heap) (l : loc) : bool :=
  match h !! l with Some (CModel _) => true | _ => false end.

Definition is_association (h : Heap) (l : loc) : bool :=
  match h !! l with Some (CAssociation _) => true | _ => false end.

(** The [Map]s of a registry exist and are apart: [_models], [_associations]
    and the inner [Map]s are [Map] cells, and no inner [Map] is one of the
    two outer ones. *)
Definition modeler_wf (h : Heap) (this : loc) : bool :=
  match h !! this with
  | Some (CModeler me) =>
      is_map h (_models me) && is_map h (_associations me)
      && negb (bool_decide (_models me = _associations me))
      && forallb (λ inner,
                    is_map h inner
                    && negb (bool_decide (inner = _models me))
                    && negb (bool_decide (inner = _associations me)))
                 (dict_values (heap_map h (_associations me)))
  | _ => false
  end.

(** The registry is in shape: its [Map]s are apart, its models are model
    instances, each under its own name with its [Map] of associations. *)
Definition registry_inv (h : Heap) (this : loc) : bool :=
  modeler_wf h this && registry_ok h this
  && forallb (is_model h)
       (dict_values (heap_map h (_models (heap_modeler h this)))).

(** The entries of the [Map] of models at [models] are under their own
    names, each with an entry in the [Map] at [assocs]. *)
Definition named (h : Heap) (models assocs : loc) : Prop :=
  ∀ name model, (name, model) ∈ heap_map h models →
    dict_has (heap_map h assocs) name = true ∧
    _name (heap_model h model) = name.

(** The cells a method of the registry may write: its [Map]s. *)
Definition writable (h : Heap) (this l : loc) : Prop :=
  l = _models (heap_modeler h this) ∨
  l = _associations (heap_modeler h this) ∨
  l ∈ dict_values (heap_map h (_associations (heap_modeler h this))).

(** [h] is a store reached from [h0] by methods of the registry [this]:
    nothing is freed, the registry object is the same, and the cells of
    [h0] that are none of its [Map]s are as they were. *)
Definition later_store (this : loc) (h0 h : Heap) : Prop :=
  dom h0 ⊆ dom h ∧
  h !! this = h0 !! this ∧
  modeler_wf h this = true ∧
  (∀ l, writable h this l → writable h0 this l ∨ l ∉ dom h0) ∧
  (∀ l, l ∈ dom h0 → ¬ writable h0 this l → h !! l = h0 !! l).

(** [h] is moreover reached without [_addModel]: the [Map] of models is as
    it was and the [Map]s of associations have only gained entries, at
    their end. *)
Definition grown_store (this : loc) (h0 h : Heap) : Prop :=
  later_store this h0 h ∧
  heap_map h (_models (heap_modeler h0 this))
    = heap_map h0 (_models (heap_modeler h0 this)) ∧
  heap_map h0 (_associations (heap_modeler h0 this))
    `prefix_of` heap_map h (_associations (heap_modeler h0 this)) ∧
  (∀ inner,
     inner ∈ dict_values (heap_map h0 (_associations (heap_modeler h0 this))) →
     heap_map h0 inner `prefix_of` heap_map h inner).

(** The references held by the wrappers of an association. *)
Definition association_refs (a : HydraAssociation) : list loc :=
  associations (source a) :: associations (target a) ::
  match through a with
  | Some t => [associations (through_model t)]
  | None => []
  end.

(** The cells that make up a registry: the registry object, its two
    [Map]s, its model instances, its inner [Map]s and their association
    objects. *)
Definition modeler_cells (h : Heap) (this : loc) : list loc :=
  let me := heap_modeler h this in
  this :: _models me :: _associations me ::
  dict_values (heap_map h (_models me)) ++
  dict_values (heap_map h (_associations me)) ++
  flat_map (λ inner, dict_values (heap_map h inner))
           (dict_values (heap_map h (_associations me))).

(** Every reference held by a registry: its cells, and the [Map]s that the
    models inside its association objects point to. *)
Definition modeler_refs (h : Heap) (this : loc) : list loc :=
  modeler_cells h this ++
  flat_map (λ inner,
              flat_map (λ a, match heap_association h a with
                             | Some a => association_refs a
                             | None => []
                             end)
                       (dict_values (heap_map h inner)))
           (dict_values
              (heap_map h (_associations (heap_modeler h this)))).

(** No reference of the registry dangles or leads to a cell of another
    kind. *)
Definition modeler_closed (h : Heap) (this : loc) : bool :=
  modeler_wf h this
  && forallb (is_model h)
       (dict_values (heap_map h (_models (heap_modeler h this))))
  && forallb (λ inner,
                forallb (λ a,
                           match heap_association h a with
                           | Some a => forallb (is_map h) (association_refs a)
                           | None => false
                           end)
                        (dict_values (heap_map h inner)))
       (dict_values (heap_map h (_associations (heap_modeler h this)))).

(** *** A registry made after a store [h0] *)

(** [h] has every cell of [h0], unchanged. *)
Definition extends (h0 h : Heap) : Prop :=
  ∀ l, l ∈ dom h0 → h !! l = h0 !! l.

(** From [h] to [h'] only [Map]s were written and cells added. *)
Definition maps_only (h h' : Heap) : Prop :=
  (∀ l c, h !! l = Some c → is_map h l = false → h' !! l = Some c) ∧
  (∀ l, is_map h l = true → is_map h' l = true).

(** An association object made after [h0], pointing to [Map]s made after
    [h0]. *)
Definition fresh_association (h0 h : Heap) (x : loc) : Prop :=
  (x ∉ dom h0) ∧
  ∃ a, h !! x = Some (CAssociation a) ∧
       Forall (λ l, l ∉ dom h0) (association_refs a).

(** An inner [Map] made after [h0] that holds such objects. *)
Definition fresh_inner (h0 h : Heap) (l : loc) : Prop :=
  (l ∉ dom h0) ∧ is_map h l = true ∧
  Forall (fresh_association h0 h) (dict_values (heap_map h l)).

(** The registry [c], with the [Map]s [m] and [a], is made of cells made
    after [h0], and [h] has every cell of [h0] unchanged. *)
Definition cloning (h0 : Heap) (c m a : loc) (h : Heap) : Prop :=
  extends h0 h ∧
  (∃ opts, h !! c = Some (CModeler {| _models := m; _associations := a;
                                      _options := opts |})) ∧
  (c ∉ dom h0) ∧ (m ∉ dom h0) ∧ (a ∉ dom h0) ∧ m ≠ a ∧
  is_map h m = true ∧ is_map h a = true ∧
  Forall (λ l, (l ∉ dom h0) ∧ is_model h l = true) (dict_values (heap_map h m)) ∧
  Forall (λ l, l ≠ m ∧ l ≠ a ∧ fresh_inner h0 h l) (dict_values (heap_map h a)).

(** What a registry holds: its options, its models by name, and the
    associations of each model by output name. *)
Definition modeler_view (h : Heap) (this : loc)
    : HydraModelerOptions * dict string HydraModel
      * dict string (dict string (option HydraAssociation)) :=
  let me := heap_modeler h this in
  (_options me,
   (λ entry : string * loc, (entry.1, heap_model h entry.2))
     <$> heap_map h (_models me),
   (λ entry : string * loc,
      (entry.1,
       (λ e : string * loc, (e.1, heap_association h e.2))
         <$> heap_map h entry.2))
     <$> heap_map h (_associations me)).

(** The calls of the public interface that add to a registry or may write
    to it. *)
Inductive Mutation :=
| AddModels (adds : list (string * Attributes * option string))
| Associate (sourceModelName : string) (builderFn : list AssociationCall)
| GetModel (name : string) (noThrow : bool)
| GetAssociations (modelName : string).

Definition mutate (this : loc) (mu : Mutation) : Heap → Heap :=
  match mu with
  | AddModels adds => λ h, (addModels this adds h).1
  | Associate sourceModelName builderFn =>
      λ h, (associate this sourceModelName builderFn h).1
  | GetModel name noThrow => λ h, (getModel this name noThrow h).1
  | GetAssociations modelName => λ h, (getAssociations this modelName h).1
  end.

(** A sequence of such calls, whatever each returns or throws. *)
Definition mutations (this : loc) (mus : list Mutation) (h : Heap) : Heap :=
  foldl (λ h mu, mutate this mu h) h mus.

(** A call on the association builder that names registered models only
    (and, for [hasMany], gives an alias). *)
Definition registered (h : Heap) (this : loc) (name : string) : bool :=
  dict_has (heap_map h (_models (heap_modeler h this))) name.

Definition call_valid (h : Heap) (this : loc) (sourceModelName : string)
    (call : AssociationCall) : bool :=
  registered h this sourceModelName &&
  match call with
  | belongsTo t _ | hasOne t _ => registered h this t
  | hasMany t hasManyAlias _ =>
      negb (bool_decide (hasManyAlias = "")) && registered h this t
  | belongsToMany t throughModelName _ =>
      registered h this t && registered h this throughModelName
  end.

(** The output name a call registers under. *)
Definition call_as (call : AssociationCall) : string :=
  match call with
  | belongsTo t options | hasOne t options => default t (opt_as options)
  | hasMany _ hasManyAlias _ => hasManyAlias
  | belongsToMany t _ options => default t (optm_as options)
  end.

(** The identity of a row for the root of a schema. *)
Definition rootIdentity (m : HydraModel) (schema : HydrationSchemaNode)
    (r : Row) : JsVal :=
  row_get r (dotted (Hydrator_alias schema) (_primaryKey m)).

(** The nodes of a schema tree, in pre-order. *)
Fixpoint schemaNodes (node : HydrationSchemaNode) : list HydrationSchemaNode :=
  match node with
  | SchemaNode _ _ _ nchildren =>
      node ::
      (fix eachChild (cs : list HydrationSchemaNode) :=
         match cs with
         | [] => []
         | child :: rest => schemaNodes child ++ eachChild rest
         end) nchildren
  end.

(** ** Sample data, after the scenarios of the test-suite *)

Definition sample_attributes (keys : list string) : Attributes :=
  PlainObject (tabulate (λ _, AttrObject None) keys).

Definition no_options : CreateHydraDirectAssociation :=
  {| opt_as := None; opt_foreignKey := None;
     opt_sourceKey := None; opt_targetKey := None |}.

(** [new HydraModeler().addModels(...).associate('Customer', ...)] *)
Definition sample_setup : M loc :=
  let* builder :=
    new_HydraModeler {| defaultPrimaryKey := None;
                        defaultForeignKeySuffix := None |} in
  let* _ :=
    addModels builder
      [("Customer", sample_attributes ["code"; "name"; "AddressCode"], None);
       ("Address", sample_attributes ["code"; "street"], None);
       ("Product", sample_attributes ["code"; "name"], None);
       ("Tag", sample_attributes ["code"; "label"], None);
       ("CustomerTag", sample_attributes ["CustomerCode"; "TagCode"],
        Some "CustomerCode")] in
  let* _ :=
    associate builder "Customer"
      [belongsTo "Address" no_options;
       hasMany "Product" "Products" no_options;
       belongsToMany "Tag" "CustomerTag"
         {| optm_as := Some "Tags"; optm_through := None;
            optm_sourceKey := None; optm_targetKey := None |}] in
  ret builder.

Definition sample_store : Heap := (sample_setup ∅).1.

Definition sample_registry : loc :=
  match (sample_setup ∅).2 with Ok builder => builder | Throw _ => 1%positive end.

Definition sample_Customer : HydraModel :=
  new_HydraModel "Customer"
    (sample_attributes ["code"; "name"; "AddressCode"]) None.

(** Two customers, the first with two products, and a row without a
    customer. *)
Definition sample_rows : list Row :=
  [ [("Customer.code", VStr "C1"); ("Products.code", VStr "P1")];
    [("Customer.code", VStr "C2"); ("Products.code", VNull)];
    [("Customer.code", VNull); ("Products.code", VStr "P3")];
    [("Customer.code", VStr "C1"); ("Products.code", VStr "P2")] ].

Definition sample_schema : HydrationSchemaNode :=
  SchemaNode "Customer" None None
    [SchemaNode "Product" (Some "Products") None []].

Definition sample_output : list Out :=
  [ OObj [("code", OVal (VStr "C1"));
          ("Products", OArr [OObj [("code", OVal (VStr "P1"))];
                             OObj [("code", OVal (VStr "P2"))]])];
    OObj [("code", OVal (VStr "C2")); ("Products", OArr [])] ].

(** Two rows with different key sets whose sorted keys, joined by a bar,
    read the same: the first has one column named with a bar in it. *)
Definition barred_rows : list Row :=
  [ [("Customer.code", VStr "C1"); ("Customer.name|Customer.note", VStr "x")];
    [("Customer.code", VStr "C1"); ("Customer.name", VStr "x");
     ("Customer.note", VStr "y")] ].

Definition root_only_schema : HydrationSchemaNode :=
  SchemaNode "Customer" None None [].

(** [new HydraModeler({ defaultPrimaryKey: 'id' })] with one model added
    without a primary key. *)
Definition id_keyed_setup : M loc :=
  let* builder :=
    new_HydraModeler {| defaultPrimaryKey := Some "id";
                        defaultForeignKeySuffix := None |} in
  let* _ := addModels builder [("animal", sample_attributes ["id"; "name"], None)] in
  ret builder.

Definition id_keyed_store : Heap := (id_keyed_setup ∅).1.

Definition id_keyed_registry : loc :=
  match (id_keyed_setup ∅).2 with Ok builder => builder | Throw _ => 1%positive end.

(** The models and associations of the sample registry as [getModel] and
    [getAssociation] return them. *)
Definition sample_ref (name : string) (keys : list string) (primaryKey : string)
    (associations : loc) : IHydrationModelWithAssociations :=
  {| name := name; attributes := sample_attributes keys;
     primaryKey := primaryKey; associations := associations |}.

Definition sample_Customer_ref : IHydrationModelWithAssociations :=
  sample_ref "Customer" ["code"; "name"; "AddressCode"] "code" 5%positive.

Definition sample_Products : HydraAssociation :=
  {| as_ := "Products"; associationType := HasMany;
     foreignKey := Some "CustomerCode";
     source := sample_Customer_ref; sourceKey := "code";
     target := sample_ref "Product" ["code"; "name"] "code" 9%positive;
     targetKey := "code"; through := None |}.

Definition sample_through : Through :=
  {| through_model :=
       sample_ref "CustomerTag" ["CustomerCode"; "TagCode"] "CustomerCode"
                  13%positive;
     through_alias := None;
     through_foreignKey := "CustomerCode";
     through_otherKey := "TagCode" |}.

Definition sample_Tags : HydraAssociation :=
  {| as_ := "Tags"; associationType := BelongsToMany;
     foreignKey := Some "CustomerCode";
     source := sample_Customer_ref; sourceKey := "code";
     target := sample_ref "Tag" ["code"; "label"] "code" 11%positive;
     targetKey := "code"; through := Some sample_through |}.

Definition tag_row (customer joinCustomer joinTag tag : JsVal) : Row :=
  [("Customer.code", customer); ("CustomerTag.CustomerCode", joinCustomer);
   ("CustomerTag.TagCode", joinTag); ("Tags.code", tag)].

(** The join rows of customer C1: tag T1 twice, tag T2, a row without a
    tag, and a row of another customer. *)
Definition tag_rows : list Row :=
  [ tag_row (VStr "C1") (VStr "C1") (VStr "T1") (VStr "T1");
    tag_row (VStr "C1") (VStr "C1") (VStr "T1") (VStr "T1");
    tag_row (VStr "C1") (VStr "C1") (VStr "T2") (VStr "T2");
    tag_row (VStr "C1") (VStr "C1") VNull VNull;
    tag_row (VStr "C1") (VStr "C2") (VStr "T3") (VStr "T3") ].

Definition Tags_node : HydrationSchemaNode :=
  SchemaNode "Tag" (Some "Tags") None [].

Definition Products_node : HydrationSchemaNode :=
  SchemaNode "Product" (Some "Products") None [].

(** Rows of one customer without any product. *)
Definition childless_rows : list Row :=
  [ [("Customer.code", VStr "C2"); ("Products.code", VNull)] ].

Definition animal_ref : IHydrationModelWithAssociations :=
  sample_ref "animal" ["id"; "name"] "id" 1%positive.

(** [new HydraModeler(builder)] on the sample registry. *)
Definition sample_clone_store : Heap :=
  (new_HydraModeler_from sample_registry sample_store).1.

Definition sample_clone : loc :=
  match (new_HydraModeler_from sample_registry sample_store).2 with
  | Ok clone => clone
  | Throw _ => 1%positive
  end.

(** A second association of the sample customer under the name
    [Products], which is taken. *)
Definition duplicate_call : AssociationCall :=
  belongsTo "Product"
    {| opt_as := Some "Products"; opt_foreignKey := None;
       opt_sourceKey := None; opt_targetKey := None |}.
(** * Properties of the first part *)

Lemma same_value_zero_decide a b : same_value_zero a b = bool_decide (a = b).
Proof.
  destruct a, b; simpl; try reflexivity;
    repeat case_bool_decide; congruence.
Qed.

Lemma strict_eq_true a b : strict_eq a b = true ↔ a = b ∧ a ≠ VNaN.
Proof.
  destruct a, b; simpl; rewrite ?bool_decide_eq_true; split;
    try (intros [? ?]); try intros ?; try split; congruence.
Qed.

Section dict_facts.
Context {K V : Type} `{EqDecision K}.
Implicit Types (d : dict K V) (k : K) (v : V).

Lemma dict_get_set_eq d k v : dict_get (dict_set d k v) k = Some v.
Proof.
  induction d as [|[k' v'] d IH]; simpl.
  - by rewrite decide_True.
  - destruct (decide (k' = k)) as [->|Hne]; simpl.
    + by rewrite decide_True.
    + by rewrite decide_False.
Qed.

Lemma dict_get_set_ne d k k' v :
  k ≠ k' → dict_get (dict_set d k v) k' = dict_get d k'.
Proof.
  intros Hne. induction d as [|[k0 v0] d IH]; simpl.
  - by rewrite decide_False.
  - destruct (decide (k0 = k)) as [->|Hne0]; simpl.
    + by rewrite !decide_False.
    + by rewrite IH.
Qed.

Lemma dict_get_Some_elem d k v : dict_get d k = Some v → (k, v) ∈ d.
Proof.
  induction d as [|[k' v'] d IH]; simpl; [done|].
  destruct (decide (k' = k)) as [->|Hne].
  - intros [= ->]. left.
  - intros Hd. right. by apply IH.
Qed.

Lemma dict_get_None d k : dict_get d k = None ↔ k ∉ d.*1.
Proof.
  induction d as [|[k' v'] d IH]; simpl.
  - split; [intros _; apply not_elem_of_nil | done].
  - rewrite not_elem_of_cons. destruct (decide (k' = k)) as [->|Hne].
    + split; [done | intros [? _]; done].
    + rewrite IH. split; [intros ?; split; [congruence | done] | intros [_ ?]; done].
Qed.

Lemma dict_has_true d k : dict_has d k = true ↔ k ∈ d.*1.
Proof.
  unfold dict_has. destruct (dict_get d k) eqn:E.
  - split; [intros _ | done].
    apply dict_get_Some_elem in E. by apply (list_elem_of_fmap_2 fst) in E.
  - apply dict_get_None in E. split; [done | intros ?; contradiction].
Qed.

Lemma dict_set_absent d k v : k ∉ d.*1 → dict_set d k v = d ++ [(k, v)].
Proof.
  induction d as [|[k' v'] d IH]; simpl; [done|].
  rewrite not_elem_of_cons. intros [Hne Hd].
  rewrite decide_False by congruence. by rewrite IH.
Qed.

Lemma dict_set_keys_present d k v : k ∈ d.*1 → (dict_set d k v).*1 = d.*1.
Proof.
  induction d as [|[k' v'] d IH]; cbn [dict_set].
  - by intros ?%elem_of_nil.
  - destruct (decide (k' = k)) as [->|Hne]; rewrite !fmap_cons; [done|].
    cbn [fst]. rewrite elem_of_cons. intros [?|Hd]; [congruence|].
    by rewrite IH.
Qed.
End dict_facts.

(** ** First occurrences and grouping *)

Section grouping.
Context {K V : Type} `{EqDecision K}.
Implicit Types (ks : list K) (k : K).

Lemma elem_of_first_seen ks k : k ∈ first_seen ks ↔ k ∈ ks.
Proof.
  induction ks as [|x ks IH]; simpl; [done|].
  rewrite !elem_of_cons, list_elem_of_filter, IH.
  destruct (decide (k = x)); naive_solver.
Qed.

Lemma NoDup_first_seen ks : NoDup (first_seen ks).
Proof.
  induction ks as [|x ks IH]; simpl; [constructor|].
  apply NoDup_cons. split.
  - rewrite list_elem_of_filter. naive_solver.
  - by apply NoDup_filter.
Qed.

Lemma first_seen_snoc ks k :
  first_seen (ks ++ [k]) =
  if decide (k ∈ ks) then first_seen ks else first_seen ks ++ [k].
Proof.
  induction ks as [|x ks IH]; cbn [first_seen app].
  - rewrite decide_False by apply not_elem_of_nil. done.
  - rewrite IH. destruct (decide (k ∈ ks)) as [Hin|Hnin].
    + rewrite (decide_True (P := k ∈ x :: ks)); [done | by right].
    + rewrite filter_app. destruct (decide (k = x)) as [->|Hne].
      * rewrite (decide_True (P := x ∈ x :: ks)) by left.
        rewrite (filter_cons_False _ x []) by (intros Hx; by apply Hx).
        by rewrite filter_nil, app_nil_r.
      * rewrite (decide_False (P := k ∈ x :: ks)).
        -- by rewrite (filter_cons_True _ k []) by done.
        -- rewrite elem_of_cons. intros [?|?]; [congruence | done].
Qed.

Lemma tabulate_cons (f : K → V) x ks :
  tabulate f (x :: ks) = (x, f x) :: tabulate f ks.
Proof. reflexivity. Qed.

Lemma tabulate_keys (f : K → V) ks : (tabulate f ks).*1 = ks.
Proof.
  induction ks as [|x ks IH]; [done|].
  rewrite tabulate_cons, fmap_cons. cbn [fst]. by rewrite IH.
Qed.

Lemma dict_get_tabulate (f : K → V) ks k :
  dict_get (tabulate f ks) k = if decide (k ∈ ks) then Some (f k) else None.
Proof.
  induction ks as [|x ks IH].
  - by rewrite decide_False by apply not_elem_of_nil.
  - rewrite tabulate_cons. cbn [dict_get].
    destruct (decide (x = k)) as [->|Hne].
    + by rewrite decide_True by left.
    + rewrite IH. destruct (decide (k ∈ ks)) as [Hin|Hnin].
      * rewrite (decide_True (P := k ∈ x :: ks)); [done | by right].
      * rewrite (decide_False (P := k ∈ x :: ks)); [done|].
        rewrite elem_of_cons. intros [?|?]; [congruence | done].
Qed.

Lemma dict_set_tabulate (f : K → V) ks k v :
  k ∈ ks → NoDup ks →
  dict_set (tabulate f ks) k v =
  tabulate (λ k', if decide (k' = k) then v else f k') ks.
Proof.
  induction ks as [|x ks IH].
  - by intros ?%elem_of_nil.
  - intros Hin [Hx Hnd]%NoDup_cons. rewrite !tabulate_cons. cbn [dict_set].
    destruct (decide (x = k)) as [->|Hne].
    + f_equal. unfold tabulate. apply list_fmap_ext. intros i y Hy.
      rewrite decide_False; [done|]. intros ->.
      apply Hx. by eapply list_elem_of_lookup_2.
    + f_equal. apply IH; [|done].
      apply elem_of_cons in Hin as [?|?]; [congruence | done].
Qed.

Lemma dict_set_tabulate_new (f : K → V) ks k v :
  k ∉ ks →
  dict_set (tabulate f ks) k v = tabulate f ks ++ [(k, v)].
Proof. intros Hk. apply dict_set_absent. by rewrite tabulate_keys. Qed.

Lemma tabulate_ext (f g : K → V) ks :
  (∀ k, k ∈ ks → f k = g k) → tabulate f ks = tabulate g ks.
Proof.
  intros Hfg. unfold tabulate. apply list_fmap_ext. intros i k Hk.
  f_equal. apply Hfg. by eapply list_elem_of_lookup_2.
Qed.

Lemma dict_values_tabulate (f : K → V) ks :
  dict_values (tabulate f ks) = f <$> ks.
Proof. unfold dict_values, tabulate. by rewrite <- list_fmap_compose. Qed.

Lemma tabulate_app (f : K → V) ks1 ks2 :
  tabulate f (ks1 ++ ks2) = tabulate f ks1 ++ tabulate f ks2.
Proof. unfold tabulate. apply fmap_app. Qed.

Lemma elem_of_tabulate (f : K → V) ks k v :
  (k, v) ∈ tabulate f ks ↔ k ∈ ks ∧ v = f k.
Proof.
  unfold tabulate. rewrite list_elem_of_fmap. split.
  - intros (k' & [= -> ->] & Hk). done.
  - intros [Hk ->]. by exists k.
Qed.
End grouping.

Lemma filter_none {A} (P : A → Prop) `{∀ x, Decision (P x)} (l : list A) :
  (∀ x, x ∈ l → ¬ P x) → filter P l = [].
Proof.
  induction l as [|a l IH]; intros Hl; [done|].
  rewrite filter_cons_False by (apply Hl; left).
  apply IH. intros x Hx. apply Hl. by right.
Qed.

Lemma foldl_skip {A B} (skip : B → bool) (f : A → B → A) (a : A) (l : list B) :
  foldl (λ acc x, if skip x then acc else f acc x) a l =
  foldl f a (filter (λ x, skip x = false) l).
Proof.
  revert a. induction l as [|x l IH]; intros a; [done|].
  cbn [foldl]. destruct (skip x) eqn:E.
  - rewrite filter_cons_False by congruence. apply IH.
  - rewrite filter_cons_True by done. cbn [foldl]. apply IH.
Qed.

Section group_by.
Context {K V : Type} `{EqDecision K}.
Variable key : V → K.

(** Pushing every element under its key groups the list: one bucket per
    key, keys in order of first occurrence, elements in list order. *)
Lemma foldl_dict_push (xs : list V) :
  foldl (λ m x, dict_push m (key x) x) [] xs =
  tabulate (λ k, filter (λ x, key x = k) xs) (first_seen (key <$> xs)).
Proof.
  induction xs as [|x xs IH] using rev_ind; [done|].
  rewrite foldl_app. cbn [foldl]. rewrite IH. unfold dict_push.
  rewrite dict_get_tabulate, fmap_app. cbn [fmap list_fmap].
  rewrite first_seen_snoc.
  destruct (decide (key x ∈ key <$> xs)) as [Hin|Hnin].
  - rewrite decide_True by (by apply elem_of_first_seen). cbn [default].
    rewrite dict_set_tabulate;
      [| by apply elem_of_first_seen | apply NoDup_first_seen].
    apply tabulate_ext. intros k _. rewrite filter_app.
    destruct (decide (k = key x)) as [->|Hne].
    + by rewrite (filter_cons_True _ x []) by done.
    + rewrite (filter_cons_False _ x []) by congruence.
      by rewrite filter_nil, app_nil_r.
  - rewrite decide_False by (by rewrite elem_of_first_seen). cbn [default].
    rewrite dict_set_tabulate_new by (by rewrite elem_of_first_seen).
    rewrite tabulate_app. f_equal.
    + apply tabulate_ext. intros k Hk. rewrite elem_of_first_seen in Hk.
      rewrite filter_app.
      rewrite (filter_cons_False _ x []); [by rewrite filter_nil, app_nil_r|].
      intros Hx. apply Hnin. by rewrite Hx.
    + unfold tabulate. cbn [fmap list_fmap]. do 2 f_equal.
      rewrite filter_app, (filter_cons_True _ x []) by done.
      rewrite filter_none; [done|].
      intros y Hy Hk. apply Hnin. rewrite <- Hk.
      by apply list_elem_of_fmap_2.
Qed.
End group_by.

(** ** Row grouping *)

(** The loop of [groupRowsByPK], once the identity column is known to be in
    the first row: the rows with a truthy identity, grouped by it. *)
Lemma groupRowsByPK_loop model alias (rows : list Row) :
  foldl (λ map row,
           let pkValue := row_get row (dotted alias (primaryKey model)) in
           if negb (truthy pkValue) then map
           else
             let group := default [] (dict_get map pkValue) in
             dict_set map pkValue (group ++ [row]))
        [] rows =
  let kept := filter (λ r, truthy (identity model alias r) = true) rows in
  tabulate (λ k, filter (λ r, identity model alias r = k) kept)
           (first_seen (identity model alias <$> kept)).
Proof.
  cbn zeta.
  etransitivity;
    [apply (foldl_skip (λ row, negb (truthy (identity model alias row)))
              (λ map row, dict_push map (identity model alias row) row))|].
  rewrite foldl_dict_push.
  assert (filter (λ x, negb (truthy (identity model alias x)) = false) rows =
          filter (λ r, truthy (identity model alias r) = true) rows) as ->; [|done].
  apply list_filter_iff. intros r. by rewrite negb_false_iff.
Qed.

(** The identities that get a group: the truthy ones, in order of first
    appearance. *)
Lemma truthy_identity_elem model alias (rows : list Row) k :
  k ∈ first_seen (identity model alias <$>
                    filter (λ r, truthy (identity model alias r) = true) rows) ↔
  truthy k = true ∧ ∃ r, r ∈ rows ∧ identity model alias r = k.
Proof.
  rewrite elem_of_first_seen, list_elem_of_fmap. split.
  - intros (r & -> & [Ht Hr]%list_elem_of_filter). eauto.
  - intros (Ht & r & Hr & <-). exists r. split; [done|].
    by apply list_elem_of_filter.
Qed.

(** What [groupRowsByPK] returns when it returns. *)
Lemma groupRowsByPK_Ok (rows : list Row) model alias groups :
  groupRowsByPK rows model alias = Ok groups →
  groups =
  tabulate (λ k, filter (λ r, identity model alias r = k) rows)
    (first_seen (identity model alias <$>
                   filter (λ r, truthy (identity model alias r) = true) rows)).
Proof.
  unfold groupRowsByPK. destruct (decide (alias = "")); [done|].
  destruct rows as [|first rest]; [by intros [= <-]|].
  destruct (negb (has_own first _)); [done|]. intros Heq.
  rewrite groupRowsByPK_loop in Heq. cbn zeta in Heq.
  injection Heq as <-. apply tabulate_ext.
  intros k [Hk _]%truthy_identity_elem.
  rewrite list_filter_filter. apply list_filter_iff. intros r.
  split; [by intros [? _]|]. intros ->. done.
Qed.

(** C5: with a non-empty alias and at least one row, [groupRowsByPK] throws
    [PrefixedPrimaryKeyNotFoundInFlatRowsError] exactly when the first row
    lacks the column [{alias}.{primaryKey}], whatever the later rows hold;
    when the first row has the column it returns a grouping. *)
Theorem groupRowsByPK_checks_first_row_only
    (model : IHydrationModelWithAssociations) (alias : string)
    (first : Row) (rest : list Row) :
  alias ≠ "" →
  (groupRowsByPK (first :: rest) model alias =
     Throw (PrefixedPrimaryKeyNotFoundInFlatRowsError alias (primaryKey model))
   ↔ has_own first (dotted alias (primaryKey model)) = false) ∧
  (has_own first (dotted alias (primaryKey model)) = true →
   ∃ groups, groupRowsByPK (first :: rest) model alias = Ok groups).
Proof.
  intros Halias. unfold groupRowsByPK.
  rewrite decide_False by done.
  destruct (has_own first _) eqn:E; cbn [negb]; split; try done; eauto.
Qed.

(** C6: in the grouping that [groupRowsByPK] returns, a row is in a group
    exactly when its identity is truthy; the keys are the truthy identities
    in order of first appearance, each once; and the group of a key is the
    rows of that identity in input order. *)
Theorem groupRowsByPK_groups_truthy_rows
    (rows : list Row) (model : IHydrationModelWithAssociations)
    (alias : string) (groups : dict JsVal (list Row)) :
  groupRowsByPK rows model alias = Ok groups →
  (∀ r, (∃ k g, (k, g) ∈ groups ∧ r ∈ g) ↔
        r ∈ rows ∧ truthy (identity model alias r) = true) ∧
  dict_keys groups =
    first_seen (identity model alias <$>
                  filter (λ r, truthy (identity model alias r) = true) rows) ∧
  NoDup (dict_keys groups) ∧
  (∀ k g, (k, g) ∈ groups →
          truthy k = true ∧
          g = filter (λ r, identity model alias r = k) rows).
Proof.
  intros ->%groupRowsByPK_Ok. split; [|split; [|split]].
  - intros r. split.
    + intros (k & g & [Hk ->]%elem_of_tabulate & Hr).
      apply truthy_identity_elem in Hk as [Hk _].
      apply list_elem_of_filter in Hr as [-> Hr]. done.
    + intros [Hr Ht].
      exists (identity model alias r),
             (filter (λ r', identity model alias r' = identity model alias r) rows).
      split.
      * apply elem_of_tabulate. split; [|done].
        apply truthy_identity_elem. eauto.
      * by apply list_elem_of_filter.
  - apply tabulate_keys.
  - unfold dict_keys. rewrite tabulate_keys. apply NoDup_first_seen.
  - intros k g [Hk ->]%elem_of_tabulate. split; [|done].
    by apply truthy_identity_elem in Hk as [Hk _].
Qed.

(** ** The monad *)

Lemma bind_Ok {A B} (m : M A) (k : A → M B) h h' a :
  m h = (h', Ok a) → bind m k h = k a h'.
Proof. unfold bind. by intros ->. Qed.

Lemma bind_Throw {A B} (m : M A) (k : A → M B) h h' e :
  m h = (h', Throw e) → bind m k h = (h', Throw e).
Proof. unfold bind. by intros ->. Qed.

Lemma bind_inv_Ok {A B} (m : M A) (k : A → M B) h h' b :
  bind m k h = (h', Ok b) → ∃ h1 a, m h = (h1, Ok a) ∧ k a h1 = (h', Ok b).
Proof.
  unfold bind. destruct (m h) as [h1 [a|e]]; [|done]. intros Hk. eauto.
Qed.

Lemma preserves_ret {A} h (a : A) : preserves h (ret a).
Proof. by eexists. Qed.

Lemma preserves_throw {A} h e : preserves h (@throw A e).
Proof. by eexists. Qed.

Lemma preserves_read {A} h (f : Heap → A) : preserves h (read f).
Proof. by eexists. Qed.

Lemma preserves_lift {A} h (r : Res A) : preserves h (lift r).
Proof. by eexists. Qed.

Lemma preserves_bind {A B} h (m : M A) (k : A → M B) :
  preserves h m →
  (∀ a, m h = (h, Ok a) → preserves h (k a)) →
  preserves h (bind m k).
Proof.
  intros [[a|e] Hm] Hk.
  - destruct (Hk a Hm) as [r Hr]. exists r. by rewrite (bind_Ok _ _ _ _ _ Hm).
  - exists (Throw e). by rewrite (bind_Throw _ _ _ _ _ Hm).
Qed.

Lemma preserves_mapM {A B} h (f : A → M B) (xs : list A) :
  (∀ x, x ∈ xs → preserves h (f x)) → preserves h (mapM f xs).
Proof.
  induction xs as [|x xs IH]; intros Hf; cbn [mapM].
  - apply preserves_ret.
  - apply preserves_bind; [apply Hf; left|]. intros y _.
    apply preserves_bind; [apply IH; intros; apply Hf; by right|].
    intros; apply preserves_ret.
Qed.

(** Under [preserves], [mapM] returns the results of the calls, each made
    on the same store. *)
Lemma mapM_Ok_preserved {A B} h (f : A → M B) (xs : list A) ys :
  (∀ x, x ∈ xs → preserves h (f x)) →
  mapM f xs h = (h, Ok ys) →
  Forall2 (λ x y, f x h = (h, Ok y)) xs ys.
Proof.
  revert ys. induction xs as [|x xs IH]; intros ys Hf; cbn [mapM].
  - intros [= <-]. constructor.
  - destruct (Hf x) as [[y|e] Hx]; [left| |].
    + rewrite (bind_Ok _ _ _ _ _ Hx).
      intros (h1 & ys' & Hys & Hret)%bind_inv_Ok.
      destruct (preserves_mapM h f xs) as [r Hr];
        [intros; apply Hf; by right|].
      rewrite Hr in Hys. injection Hys as <- ->.
      injection Hret as <-. constructor; [done|].
      apply IH; [intros; apply Hf; by right | done].
    + by rewrite (bind_Throw _ _ _ _ _ Hx).
Qed.

Lemma mapM_preserved_Ok {A B} h (f : A → M B) (xs : list A) ys :
  Forall2 (λ x y, f x h = (h, Ok y)) xs ys → mapM f xs h = (h, Ok ys).
Proof.
  induction 1 as [|x y xs ys Hx _ IH]; cbn [mapM]; [done|].
  rewrite (bind_Ok _ _ _ _ _ Hx), (bind_Ok _ _ _ _ _ IH). done.
Qed.

(** ** Reading the registry *)

Lemma registry_ok_model h this name model :
  registry_ok h this = true →
  dict_get (heap_map h (_models (heap_modeler h this))) name = Some model →
  dict_has (heap_map h (_associations (heap_modeler h this))) name = true ∧
  _name (heap_model h model) = name.
Proof.
  unfold registry_ok. rewrite forallb_forall. intros Hok Hget.
  apply dict_get_Some_elem, list_elem_of_In, Hok in Hget.
  apply andb_true_iff in Hget as [? Hname].
  by apply bool_decide_eq_true in Hname.
Qed.

Lemma ensureAssocMap_present h this modelName :
  dict_has (heap_map h (_associations (heap_modeler h this))) modelName = true →
  ∃ map, dict_get (heap_map h (_associations (heap_modeler h this))) modelName
           = Some map ∧
         ensureAssocMap this modelName h = (h, Ok map).
Proof.
  unfold dict_has.
  destruct (dict_get _ modelName) as [map|] eqn:E; [intros _|done].
  exists map. split; [done|].
  cbv [ensureAssocMap bind read Map_get ret]. by rewrite E.
Qed.

Lemma getModel_run h this name' noThrow :
  registry_ok h this = true →
  getModel this name' noThrow h =
  (h, match dict_get (heap_map h (_models (heap_modeler h this))) name' with
      | None => if negb noThrow then Throw (ModelNotRegisteredError name')
                else Ok None
      | Some model =>
          Ok (Some {| name := _name (heap_model h model);
                      attributes := _attributes (heap_model h model);
                      primaryKey := _primaryKey (heap_model h model);
                      associations :=
                        default model
                          (dict_get (heap_map h (_associations (heap_modeler h this)))
                                    name') |})
      end).
Proof.
  intros Hok. unfold getModel.
  rewrite (bind_Ok _ _ h h (_models (heap_modeler h this))) by done.
  rewrite (bind_Ok _ _ h h
             (dict_get (heap_map h (_models (heap_modeler h this))) name'))
    by done.
  destruct (dict_get _ name') as [model|] eqn:E.
  - destruct (registry_ok_model _ _ _ _ Hok E) as [Hhas _].
    destruct (ensureAssocMap_present _ _ _ Hhas) as (map & Hmap & Hrun).
    rewrite (bind_Ok _ _ h h (heap_model h model)) by done.
    rewrite (bind_Ok _ _ _ _ _ Hrun). by rewrite Hmap.
  - by destruct noThrow.
Qed.

Lemma getModel_preserves h this name' noThrow :
  registry_ok h this = true → preserves h (getModel this name' noThrow).
Proof. intros Hok. eexists. by apply getModel_run. Qed.

Lemma getAssociation_preserves h this modelName associationName :
  dict_has (heap_map h (_associations (heap_modeler h this))) modelName = true →
  preserves h (getAssociation this modelName associationName).
Proof.
  intros Hhas. destruct (ensureAssocMap_present _ _ _ Hhas) as (map & _ & Hrun).
  unfold getAssociation, getAssociations.
  unfold preserves. rewrite (bind_Ok _ _ _ _ _ Hrun).
  rewrite (bind_Ok _ _ h h (dict_get (heap_map h map) associationName)) by done.
  destruct (dict_get _ associationName); by eexists.
Qed.

(** ** The hydrator reads the registry only *)

Lemma HydrationSchemaNode_nested_ind (P : HydrationSchemaNode → Prop) :
  (∀ nmodel nalias npostProcess nchildren,
     Forall P nchildren → P (SchemaNode nmodel nalias npostProcess nchildren)) →
  ∀ node, P node.
Proof.
  intros Hnode. fix IH 1. intros [nmodel nalias npostProcess nchildren].
  apply Hnode. induction nchildren as [|child rest IHrest]; constructor.
  - apply IH.
  - apply IHrest.
Qed.

Lemma hydrateChild_preserves recurse h this model alias row rows parentsIn
    child result :
  dict_has (heap_map h (_associations (heap_modeler h this))) (name model)
    = true →
  (∀ group parents, preserves h (recurse group parents)) →
  preserves h (hydrateChild recurse this model alias row rows parentsIn
                 child result).
Proof.
  intros Hhas Hrec. unfold hydrateChild.
  destruct (negb _); [apply preserves_ret|].
  destruct child as [childModel childAliasOption ? ?].
  apply preserves_bind; [by apply getAssociation_preserves|].
  intros [assoc|] _; [|apply preserves_throw].
  destruct (decide (associationType assoc = BelongsToMany)).
  - destruct (through assoc) as [t|]; [|apply preserves_throw].
    apply preserves_bind; [apply preserves_read|]. intros suffix _.
    apply preserves_bind; [apply preserves_mapM; intros; apply Hrec|].
    intros; apply preserves_ret.
  - apply preserves_bind; [apply preserves_lift|]. intros grouped _.
    destruct (decide (associationType assoc = HasMany)).
    + apply preserves_bind; [apply preserves_mapM; intros; apply Hrec|].
      intros; apply preserves_ret.
    + destruct (dict_values grouped); [apply preserves_ret|].
      apply preserves_bind; [apply Hrec|]. intros; apply preserves_ret.
Qed.

Lemma hydrateModelRecursive_preserves h this :
  registry_ok h this = true →
  ∀ node rows parentsIn,
    preserves h (hydrateModelRecursive this node rows parentsIn).
Proof.
  intros Hok node.
  induction node as [nmodel nalias npostProcess nchildren IH]
    using HydrationSchemaNode_nested_ind.
  intros rows parentsIn. cbn [hydrateModelRecursive].
  apply preserves_bind; [by apply getModel_preserves|].
  intros model Hmodel. rewrite getModel_run in Hmodel by done.
  destruct model as [model|]; [|apply preserves_throw].
  destruct rows as [|row rows']; [apply preserves_ret|].
  assert (dict_has (heap_map h (_associations (heap_modeler h this)))
            (name model) = true) as Hhas.
  { destruct (dict_get _ nmodel) as [ml|] eqn:E.
    - injection Hmodel as <-. cbn [name].
      destruct (registry_ok_model _ _ _ _ Hok E) as [Hhas ->]. done.
    - by destruct (negb true). }
  apply preserves_bind; [|intros; apply preserves_ret].
  generalize (foldl
    (λ (result : dict string Out) (attr : string),
       if has_own row (dotted (or_else nalias nmodel) attr)
       then dict_set result attr
              (OVal (row_get row (dotted (or_else nalias nmodel) attr)))
       else result) [] (Object_keys (attributes model))).
  induction IH as [|child rest Hchild _ IHrest]; intros result.
  - apply preserves_ret.
  - apply preserves_bind; [|intros; apply IHrest].
    apply hydrateChild_preserves; [done|]. intros; apply Hchild.
Qed.

Lemma Hydrator_hydrate_preserves h this rows schema :
  registry_ok h this = true → preserves h (Hydrator_hydrate rows this schema).
Proof.
  intros Hok. unfold Hydrator_hydrate.
  apply preserves_bind; [apply preserves_lift|]. intros _ _.
  apply preserves_bind; [by apply getModel_preserves|].
  intros [rootModel|] _; [|apply preserves_throw].
  apply preserves_bind; [apply preserves_lift|]. intros groups _.
  apply preserves_mapM. intros; by apply hydrateModelRecursive_preserves.
Qed.

Lemma hydrate_preserves h this rows schema :
  registry_ok h this = true → preserves h (hydrate this rows schema).
Proof.
  intros Hok. unfold hydrate.
  destruct (negb _); [apply preserves_throw|].
  by apply Hydrator_hydrate_preserves.
Qed.

(** * The claims about hydration *)

Example sample_registry_ok : registry_ok sample_store sample_registry = true.
Proof. vm_compute. reflexivity. Qed.

Example sample_hydrate :
  hydrate sample_registry sample_rows sample_schema sample_store
  = (sample_store, Ok sample_output).
Proof. vm_compute. reflexivity. Qed.

(** C1, as amended: when [hydrate] returns, it returns one object per
    distinct truthy root identity, in order of first appearance; the object
    of an identity is the tree built from the rows of that identity, and
    the registry is left as it was. *)
Theorem hydrate_one_object_per_truthy_identity
    (h h' : Heap) (this : loc) (rows : list Row)
    (schema : HydrationSchemaNode) (m : HydraModel) (out : list Out) :
  registry_ok h this = true →
  registeredModel h this (model schema) = Some m →
  hydrate this rows schema h = (h', Ok out) →
  let ids :=
    first_seen (rootIdentity m schema <$>
                  filter (λ r, truthy (rootIdentity m schema r) = true) rows) in
  h' = h ∧
  length out = length ids ∧
  Forall2 (λ k o,
             hydrateModelRecursive this schema
               (filter (λ r, rootIdentity m schema r = k) rows) [] h
             = (h, Ok o))
          ids out.
Proof.
  intros Hok Hm Hrun ids.
  destruct (hydrate_preserves h this rows schema Hok) as [r Hr].
  rewrite Hr in Hrun. injection Hrun as <- ->. split; [done|].
  unfold hydrate in Hr. destruct (negb _); [done|].
  unfold Hydrator_hydrate in Hr.
  destruct (checkAllSchemaAliasesPresent schema rows) as [[]|e] eqn:Hcheck;
    [|done].
  rewrite (bind_Ok _ _ h h ()) in Hr by done.
  apply bind_inv_Ok in Hr as (h1 & rootModel & Hget & Hr).
  rewrite getModel_run in Hget by done.
  unfold registeredModel in Hm.
  destruct (dict_get _ (model schema)) as [ml|] eqn:Hml; [|done].
  injection Hm as <-. injection Hget as <- <-.
  apply bind_inv_Ok in Hr as (h1 & groups & Hgroups & Hr).
  unfold lift in Hgroups.
  destruct (groupRowsByPK rows _ _) as [groups'|] eqn:Hgr; [|done].
  injection Hgroups as <- <-. apply groupRowsByPK_Ok in Hgr.
  subst groups'. rewrite dict_values_tabulate in Hr.
  apply mapM_Ok_preserved in Hr;
    [|intros; by apply hydrateModelRecursive_preserves].
  apply Forall2_fmap_l in Hr. split; [|exact Hr].
  symmetry. by eapply Forall2_length.
Qed.

(** C9: a call of [hydrate] leaves the store as it found it, so a second
    call with the same rows and schema on the same registry returns what
    the first returned. *)
Theorem hydrate_deterministic
    (h : Heap) (this : loc) (rows : list Row) (schema : HydrationSchemaNode) :
  registry_ok h this = true →
  let first := hydrate this rows schema h in
  let second := hydrate this rows schema first.1 in
  first.1 = h ∧ second = first.
Proof.
  intros Hok first second.
  destruct (hydrate_preserves h this rows schema Hok) as [r Hr].
  subst second first. rewrite Hr. cbn [fst]. by rewrite Hr.
Qed.

(** C1 as stated fails on a row whose root identity is [null]: the sample
    rows are homogeneous, the root model is registered, the rows show three
    distinct root identity values, and [hydrate] returns two objects. *)
Lemma hydrate_drops_falsy_identity :
  registeredModel sample_store sample_registry (model sample_schema)
    = Some sample_Customer ∧
  allObjectsHaveSameProperties sample_rows = true ∧
  first_seen (rootIdentity sample_Customer sample_schema <$> sample_rows)
    = [VStr "C1"; VStr "C2"; VNull] ∧
  hydrate sample_registry sample_rows sample_schema sample_store
    = (sample_store, Ok sample_output) ∧
  length sample_output ≠
  length (first_seen (rootIdentity sample_Customer sample_schema <$> sample_rows)).
Proof. vm_compute. repeat split; discriminate. Qed.

Lemma hydrate_one_object_per_truthy_identity_witness :
  let ids :=
    first_seen (rootIdentity sample_Customer sample_schema <$>
                  filter (λ r, truthy (rootIdentity sample_Customer sample_schema r)
                               = true) sample_rows) in
  sample_store = sample_store ∧
  length sample_output = length ids ∧
  Forall2 (λ k o,
             hydrateModelRecursive sample_registry sample_schema
               (filter (λ r, rootIdentity sample_Customer sample_schema r = k)
                       sample_rows) [] sample_store
             = (sample_store, Ok o))
          ids sample_output.
Proof.
  apply (hydrate_one_object_per_truthy_identity
           sample_store sample_store sample_registry sample_rows sample_schema
           sample_Customer sample_output);
    vm_compute; reflexivity.
Defined.

Lemma hydrate_deterministic_witness :
  let first := hydrate sample_registry sample_rows sample_schema sample_store in
  let second := hydrate sample_registry sample_rows sample_schema first.1 in
  first.1 = sample_store ∧ second = first.
Proof.
  apply (hydrate_deterministic sample_store sample_registry sample_rows
           sample_schema).
  vm_compute. reflexivity.
Defined.

(** ** Alias validation *)

Lemma find_app_first {A} (f : A → bool) (l1 l2 : list A) :
  find f (l1 ++ l2) =
  match find f l1 with Some x => Some x | None => find f l2 end.
Proof.
  induction l1 as [|a l1 IH]; [done|]. cbn [app find].
  by destruct (f a).
Qed.

(** [checkNode] reports the first node, in pre-order, whose alias is no
    column prefix. *)
Lemma checkNode_find prefixes node :
  checkNode prefixes node =
  match find (λ n, negb (bool_decide (Hydrator_alias n ∈ prefixes)))
             (schemaNodes node) with
  | None => Ok ()
  | Some n =>
      Throw (SchemaAliasMissingError (Hydrator_alias n) (model n) prefixes)
  end.
Proof.
  induction node as [nmodel nalias npostProcess nchildren IH]
    using HydrationSchemaNode_nested_ind.
  cbn [checkNode schemaNodes find].
  change (Hydrator_alias (SchemaNode nmodel nalias npostProcess nchildren))
    with (or_else nalias nmodel).
  destruct (negb (bool_decide (or_else nalias nmodel ∈ prefixes))); [done|].
  induction IH as [|child rest Hchild _ IHrest]; [done|].
  rewrite find_app_first, Hchild.
  destruct (find _ (schemaNodes child)); [done|]. apply IHrest.
Qed.

Lemma hydrate_missing_alias h this (first : Row) (rest : list Row) schema n :
  n ∈ schemaNodes schema →
  Hydrator_alias n ∉ colPrefixes first →
  ∃ n', n' ∈ schemaNodes schema ∧
        (Hydrator_alias n' ∉ colPrefixes first) ∧
        Hydrator_hydrate (first :: rest) this schema h =
          (h, Throw (SchemaAliasMissingError (Hydrator_alias n') (model n')
                       (colPrefixes first))).
Proof.
  intros Hn Hmiss.
  destruct (find (λ n, negb (bool_decide (Hydrator_alias n ∈ colPrefixes first)))
                 (schemaNodes schema)) as [n'|] eqn:Hfind.
  - apply find_some in Hfind as Hn'. destruct Hn' as [Hin Hneg].
    exists n'. split; [by apply list_elem_of_In|]. split.
    + apply negb_true_iff, bool_decide_eq_false in Hneg. done.
    + unfold Hydrator_hydrate, checkAllSchemaAliasesPresent.
      rewrite checkNode_find, Hfind. done.
  - exfalso. apply list_elem_of_In in Hn.
    apply (find_none _ _ Hfind) in Hn.
    apply negb_false_iff, bool_decide_eq_true in Hn. done.
Qed.

Lemma prefix_dotted (a b : string) : startsWith (dotted a b) (a +:+ ".") = true.
Proof.
  unfold startsWith, dotted. induction a as [|c a IH].
  - cbn. by destruct b.
  - change (String c a +:+ ".") with (String c (a +:+ ".")).
    change (String c a +:+ "." +:+ b) with (String c (a +:+ "." +:+ b)).
    cbn [String.prefix]. destruct (ascii_dec c c); [apply IH | done].
Qed.

Lemma groupRowsByPK_Ok_column (row : Row) rest model alias groups :
  groupRowsByPK (row :: rest) model alias = Ok groups →
  alias ≠ "" ∧ has_own row (dotted alias (primaryKey model)) = true.
Proof.
  unfold groupRowsByPK. destruct (decide (alias = "")); [done|].
  destruct (has_own row _); [done|]. done.
Qed.

Lemma hydrateChild_zero_identities recurse h this model alias_ (row : Row)
    (rest : list Row) parentsIn child result assoc :
  getAssociation this (name model) (Hydrator_alias child) h
    = (h, Ok (Some assoc)) →
  associationType assoc ≠ BelongsToMany →
  groupRowsByPK (row :: rest) (target assoc) (Hydrator_alias child) = Ok [] →
  hydrateChild recurse this model alias_ row (row :: rest) parentsIn child result h
  = (h, Ok (if decide (associationType assoc = HasMany)
            then dict_set result
                   (match alias child with
                    | None => as_ assoc
                    | Some _ => Hydrator_alias child
                    end)
                   (OArr [])
            else result)).
Proof.
  intros Hassoc Hkind Hgroups. unfold hydrateChild.
  destruct (groupRowsByPK_Ok_column _ _ _ _ _ Hgroups) as [_ Hcol].
  assert (existsb
            (λ r : Row,
               existsb (λ k, startsWith k (Hydrator_alias child +:+ "."))
                       (dict_keys r))
            (row :: rest) = true) as ->.
  { cbn [existsb]. apply orb_true_iff. left. apply existsb_exists.
    exists (dotted (Hydrator_alias child) (primaryKey (target assoc))).
    split; [|apply prefix_dotted].
    apply list_elem_of_In. by apply dict_has_true. }
  cbn [negb]. destruct child as [childModel childAliasOption pp cs].
  change (or_else childAliasOption childModel)
    with (Hydrator_alias (SchemaNode childModel childAliasOption pp cs)).
  rewrite (bind_Ok _ _ _ _ _ Hassoc).
  rewrite decide_False by done.
  rewrite (bind_Ok _ _ h h []) by (unfold lift; by rewrite Hgroups).
  destruct (decide (associationType assoc = HasMany)); done.
Qed.


(** ** [BelongsToMany] *)

Lemma foldl_ext_all {A B} (f g : A → B → A) (a : A) (l : list B) :
  (∀ a x, f a x = g a x) → foldl f a l = foldl g a l.
Proof.
  intros Hfg. revert a. induction l as [|x l IH]; intros a; [done|].
  cbn [foldl]. by rewrite Hfg, IH.
Qed.

Lemma groupByColumn_spec (relevantRows : list Row) (childColumn : string) :
  groupByColumn relevantRows childColumn =
  tabulate (λ k, filter (λ r, row_get r childColumn = k) relevantRows)
           (first_seen ((λ r, row_get r childColumn) <$> relevantRows)).
Proof.
  unfold groupByColumn.
  rewrite <- (foldl_dict_push (λ r : Row, row_get r childColumn)).
  apply foldl_ext_all. intros grouped r. unfold dict_push.
  by destruct (dict_get grouped (row_get r childColumn)).
Qed.

Lemma belongsToManyRelevantRows_spec (rows : list Row) parentPkValue
    joinParentColumn childColumn joinChildColumn :
  belongsToManyRelevantRows rows parentPkValue
    joinParentColumn childColumn joinChildColumn =
  filter (λ r : Row,
            strict_eq (row_get r joinParentColumn) parentPkValue = true ∧
            nullish (row_get r childColumn) = false ∧
            (nullish (row_get r joinChildColumn) = true ∨
             strict_eq (row_get r joinChildColumn) (row_get r childColumn) = true))
         rows.
Proof.
  unfold belongsToManyRelevantRows. apply list_filter_iff. intros r.
  destruct (strict_eq (row_get r joinParentColumn) parentPkValue); cbn [negb];
    [|naive_solver].
  destruct (nullish (row_get r childColumn)); [naive_solver|].
  rewrite orb_true_iff. naive_solver.
Qed.

Lemma hydrateChild_belongsToMany recurse h this model alias_ (row : Row)
    (rows : list Row) parentsIn child result assoc t result' :
  (∀ group parents, preserves h (recurse group parents)) →
  existsb (λ r : Row,
             existsb (λ k, startsWith k (Hydrator_alias child +:+ "."))
                     (dict_keys r)) rows = true →
  getAssociation this (name model) (Hydrator_alias child) h
    = (h, Ok (Some assoc)) →
  associationType assoc = BelongsToMany →
  through assoc = Some t →
  hydrateChild recurse this model alias_ row rows parentsIn child result h
    = (h, Ok result') →
  let suffix :=
    default "undefined" (defaultForeignKeySuffix (_options (heap_modeler h this))) in
  let groups :=
    dict_values
      (belongsToManyGroups suffix assoc t alias_ (Hydrator_alias child) row rows) in
  ∃ items,
    result' = dict_set result
                (match alias child with
                 | None => as_ assoc
                 | Some _ => Hydrator_alias child
                 end) (OArr items) ∧
    Forall2 (λ group item,
               recurse group (dict_set parentsIn alias_ (OObj result)) h
               = (h, Ok item))
            groups items.
Proof.
  intros Hrec Hkeys Hassoc Hkind Ht. unfold hydrateChild. rewrite Hkeys.
  cbn [negb]. destruct child as [childModel childAliasOption pp cs].
  change (or_else childAliasOption childModel)
    with (Hydrator_alias (SchemaNode childModel childAliasOption pp cs)).
  rewrite (bind_Ok _ _ _ _ _ Hassoc).
  rewrite decide_True by done. rewrite Ht.
  rewrite (bind_Ok _ _ h h
             (default "undefined"
                (defaultForeignKeySuffix (_options (heap_modeler h this)))))
    by done.
  intros (h1 & items & Hitems & Hret)%bind_inv_Ok.
  match type of Hitems with
  | mapM ?f ?groups h = _ =>
      destruct (preserves_mapM h f groups) as [r Hr]; [intros; apply Hrec|];
      rewrite Hr in Hitems; injection Hitems as <- ->;
      apply mapM_Ok_preserved in Hr; [|intros; apply Hrec]
  end.
  injection Hret as <-. exists items. split; [done|]. exact Hr.
Qed.

(** C2: for a [BelongsToMany] child with a join model, the rows kept are
    exactly the rows of the parent group whose join parent-key column is
    strictly equal to the parent's source-key value, whose child target-key
    column is neither [null] nor [undefined], and whose join child-key
    column is [null], [undefined] or strictly equal to that target key; the
    rows kept are grouped by target-key value in order of first appearance,
    each group in row order; and the output array holds one entry per
    group, so rows repeating a child give one entry. *)
Theorem belongsToMany_reconciliation
    (h : Heap) (this : loc) (model : IHydrationModelWithAssociations)
    (alias_ : string) (row : Row) (rows : list Row)
    (child : HydrationSchemaNode) (assoc : HydraAssociation) (t : Through) :
  let suffix :=
    default "undefined" (defaultForeignKeySuffix (_options (heap_modeler h this))) in
  let childAlias := Hydrator_alias child in
  let joinAlias := default (name (through_model t)) (through_alias t) in
  let parentKeyValue :=
    row_get row (dotted alias_ (or_else (Some (sourceKey assoc))
                                        (primaryKey (source assoc)))) in
  let joinParentColumn :=
    dotted joinAlias (or_else (Some (through_foreignKey t))
                              (name (source assoc) +:+ suffix)) in
  let joinChildColumn :=
    dotted joinAlias (or_else (Some (through_otherKey t))
                              (name (target assoc) +:+ suffix)) in
  let childColumn :=
    dotted childAlias (or_else (Some (targetKey assoc))
                               (primaryKey (target assoc))) in
  let kept :=
    filter (λ r : Row,
              strict_eq (row_get r joinParentColumn) parentKeyValue = true ∧
              nullish (row_get r childColumn) = false ∧
              (nullish (row_get r joinChildColumn) = true ∨
               strict_eq (row_get r joinChildColumn) (row_get r childColumn)
                 = true))
           rows in
  let childKeys := first_seen ((λ r, row_get r childColumn) <$> kept) in
  belongsToManyGroups suffix assoc t alias_ childAlias row rows =
    tabulate (λ k, filter (λ r, row_get r childColumn = k) kept) childKeys ∧
  ∀ recurse parentsIn result result',
    (∀ group parents, preserves h (recurse group parents)) →
    existsb (λ r : Row,
               existsb (λ k, startsWith k (childAlias +:+ ".")) (dict_keys r))
            rows = true →
    getAssociation this (name model) childAlias h = (h, Ok (Some assoc)) →
    associationType assoc = BelongsToMany →
    through assoc = Some t →
    hydrateChild recurse this model alias_ row rows parentsIn child result h
      = (h, Ok result') →
    ∃ items,
      result' = dict_set result
                  (match alias child with
                   | None => as_ assoc
                   | Some _ => childAlias
                   end) (OArr items) ∧
      length items = length childKeys ∧
      Forall2 (λ k item,
                 recurse (filter (λ r, row_get r childColumn = k) kept)
                         (dict_set parentsIn alias_ (OObj result)) h
                 = (h, Ok item))
              childKeys items.
Proof.
  intros suffix childAlias joinAlias parentKeyValue joinParentColumn
    joinChildColumn childColumn kept childKeys.
  assert (belongsToManyGroups suffix assoc t alias_ childAlias row rows =
          tabulate (λ k, filter (λ r, row_get r childColumn = k) kept) childKeys)
    as Hgroups.
  { unfold belongsToManyGroups.
    rewrite belongsToManyRelevantRows_spec. apply groupByColumn_spec. }
  split; [done|].
  intros recurse parentsIn result result' Hrec Hkeys Hassoc Hkind Ht Hrun.
  destruct (hydrateChild_belongsToMany _ _ _ _ _ _ _ _ _ _ _ _ _
              Hrec Hkeys Hassoc Hkind Ht Hrun) as (items & -> & Hitems).
  exists items. split; [done|].
  fold suffix childAlias in Hitems. rewrite Hgroups in Hitems.
  rewrite dict_values_tabulate in Hitems. apply Forall2_fmap_l in Hitems.
  split; [|exact Hitems]. symmetry. by eapply Forall2_length.
Qed.

(** ** The key-set check of [hydrate] *)

(** Rows that fail [allObjectsHaveSameProperties] are refused before the
    schema, the registry or the grouping is looked at. *)
Lemma hydrate_checks_key_sets_first h this rows schema :
  allObjectsHaveSameProperties rows = false →
  hydrate this rows schema h = (h, Throw AllFlatRowsMustHaveSamePropertiesError).
Proof. intros Hrows. unfold hydrate. by rewrite Hrows. Qed.

(** C7 fails on the code: the two rows of [barred_rows] have different key
    sets ([Customer.name] is a key of the second only), yet their sorted
    keys joined by ['|'] are the same string, so [hydrate] does not throw
    [AllFlatRowsMustHaveSamePropertiesError] and returns an object. *)
Theorem hydrate_accepts_barred_rows :
  ("Customer.name" ∈ dict_keys [("Customer.code", VStr "C1");
                                 ("Customer.name", VStr "x");
                                 ("Customer.note", VStr "y")]) ∧
  ("Customer.name" ∉ dict_keys [("Customer.code", VStr "C1");
                                 ("Customer.name|Customer.note", VStr "x")]) ∧
  allObjectsHaveSameProperties barred_rows = true ∧
  hydrate sample_registry barred_rows root_only_schema sample_store
  = (sample_store, Ok [OObj [("code", OVal (VStr "C1"))]]).
Proof.
  split; [|split; [|split]].
  - apply list_elem_of_In. vm_compute. tauto.
  - intros Hin%list_elem_of_In. vm_compute in Hin.
    destruct Hin as [|[|[]]]; discriminate.
  - vm_compute. reflexivity.
  - vm_compute. reflexivity.
Qed.

(** ** The primary key of a model registered without one *)

(** C4 fails on the code: in a registry configured with the default
    primary key ['id'], a model added without a primary key gets ['code'],
    while the default of the association keys is ['id']. *)
Theorem addModel_ignores_defaultPrimaryKey :
  (get_defaultPrimaryKey id_keyed_registry id_keyed_store).2 = Ok "id" ∧
  _primaryKey <$> registeredModel id_keyed_store id_keyed_registry "animal"
    = Some "code" ∧
  (getModel id_keyed_registry "animal" true id_keyed_store).2
    = Ok (Some {| name := "animal";
                  attributes :=
                    MapObject [("id", AttrObject None); ("name", AttrObject None);
                               ("code", AttrObject None)];
                  primaryKey := "code";
                  associations := 5%positive |}).
Proof. vm_compute. repeat split. Qed.

(** Whatever the options of the registry, [new HydraModel] without a
    primary key takes ['code']. *)
Lemma new_HydraModel_default_key name attrs :
  _primaryKey (new_HydraModel name attrs None) = "code".
Proof. reflexivity. Qed.

(** ** The theorems above at the sample data *)

Lemma groupRowsByPK_checks_first_row_only_witness :
  (groupRowsByPK ([("Animal.name", VStr "Dog")]
                    :: [[("Animal.id", VNum 2); ("Animal.name", VStr "Cat")]])
     animal_ref "Animal" =
     Throw (PrefixedPrimaryKeyNotFoundInFlatRowsError "Animal"
              (primaryKey animal_ref))
   ↔ has_own [("Animal.name", VStr "Dog")]
       (dotted "Animal" (primaryKey animal_ref)) = false) ∧
  (has_own [("Animal.name", VStr "Dog")]
     (dotted "Animal" (primaryKey animal_ref)) = true →
   ∃ groups,
     groupRowsByPK ([("Animal.name", VStr "Dog")]
                      :: [[("Animal.id", VNum 2); ("Animal.name", VStr "Cat")]])
       animal_ref "Animal" = Ok groups).
Proof.
  apply (groupRowsByPK_checks_first_row_only animal_ref "Animal"
           [("Animal.name", VStr "Dog")]
           [[("Animal.id", VNum 2); ("Animal.name", VStr "Cat")]]).
  discriminate.
Defined.

Lemma groupRowsByPK_groups_truthy_rows_witness :
  let groups :=
    [(VStr "C1", [ [("Customer.code", VStr "C1"); ("Products.code", VStr "P1")];
                   [("Customer.code", VStr "C1"); ("Products.code", VStr "P2")] ]);
     (VStr "C2", [ [("Customer.code", VStr "C2"); ("Products.code", VNull)] ])] in
  (∀ r, (∃ k g, (k, g) ∈ groups ∧ r ∈ g) ↔
        r ∈ sample_rows ∧ truthy (identity sample_Customer_ref "Customer" r) = true) ∧
  dict_keys groups =
    first_seen (identity sample_Customer_ref "Customer" <$>
                  filter (λ r, truthy (identity sample_Customer_ref "Customer" r)
                               = true) sample_rows) ∧
  NoDup (dict_keys groups) ∧
  (∀ k g, (k, g) ∈ groups →
          truthy k = true ∧
          g = filter (λ r, identity sample_Customer_ref "Customer" r = k)
                     sample_rows).
Proof.
  apply (groupRowsByPK_groups_truthy_rows sample_rows sample_Customer_ref
           "Customer").
  vm_compute. reflexivity.
Defined.


Lemma belongsToMany_reconciliation_witness :
  ∃ items,
    [("code", OVal (VStr "C1"));
     ("Tags", OArr [OObj [("code", OVal (VStr "T1"))];
                    OObj [("code", OVal (VStr "T2"))]])]
    = dict_set [("code", OVal (VStr "C1"))] "Tags" (OArr items) ∧
    length items = 2 ∧
    Forall2 (λ k item,
               hydrateModelRecursive sample_registry Tags_node
                 (filter (λ r, row_get r "Tags.code" = k)
                    [ tag_row (VStr "C1") (VStr "C1") (VStr "T1") (VStr "T1");
                      tag_row (VStr "C1") (VStr "C1") (VStr "T1") (VStr "T1");
                      tag_row (VStr "C1") (VStr "C1") (VStr "T2") (VStr "T2") ])
                 [("Customer", OObj [("code", OVal (VStr "C1"))])] sample_store
               = (sample_store, Ok item))
            [VStr "T1"; VStr "T2"] items.
Proof.
  apply (proj2 (belongsToMany_reconciliation sample_store sample_registry
                  sample_Customer_ref "Customer"
                  (tag_row (VStr "C1") (VStr "C1") (VStr "T1") (VStr "T1"))
                  tag_rows Tags_node sample_Tags sample_through)
           (hydrateModelRecursive sample_registry Tags_node) []
           [("code", OVal (VStr "C1"))]).
  - intros group parents. apply hydrateModelRecursive_preserves.
    vm_compute. reflexivity.
  - vm_compute. reflexivity.
  - vm_compute. reflexivity.
  - reflexivity.
  - reflexivity.
  - vm_compute. reflexivity.
Defined.

(** * The registry in the store *)

(** ** Rules for [spec] *)

Lemma spec_ret {A} (P : Heap → Prop) (a : A) Q :
  (∀ h, P h → Q (Ok a) h) → spec P (ret a) Q.
Proof. intros HQ h h' r HP Heq. injection Heq as <- <-. by apply HQ. Qed.

Lemma spec_throw {A} (P : Heap → Prop) e (Q : Res A → Heap → Prop) :
  (∀ h, P h → Q (Throw e) h) → spec P (throw e) Q.
Proof. intros HQ h h' r HP Heq. injection Heq as <- <-. by apply HQ. Qed.

Lemma spec_read {A} (P : Heap → Prop) (f : Heap → A) Q :
  (∀ h, P h → Q (Ok (f h)) h) → spec P (read f) Q.
Proof. intros HQ h h' r HP Heq. injection Heq as <- <-. by apply HQ. Qed.

Lemma spec_alloc (P : Heap → Prop) c Q :
  (∀ h, P h → Q (Ok (fresh (dom h))) (<[fresh (dom h) := c]> h)) →
  spec P (alloc c) Q.
Proof. intros HQ h h' r HP Heq. injection Heq as <- <-. by apply HQ. Qed.

Lemma spec_write (P : Heap → Prop) l c Q :
  (∀ h, P h → Q (Ok ()) (<[l := c]> h)) → spec P (write l c) Q.
Proof. intros HQ h h' r HP Heq. injection Heq as <- <-. by apply HQ. Qed.

Lemma spec_Map_set (P : Heap → Prop) map k v Q :
  (∀ h, P h → Q (Ok ()) (<[map := CMap (dict_set (heap_map h map) k v)]> h)) →
  spec P (Map_set map k v) Q.
Proof. intros HQ h h' r HP Heq. injection Heq as <- <-. by apply HQ. Qed.

Lemma spec_bind {A B} (P : Heap → Prop) (m : M A) (k : A → M B) Q1 Q :
  spec P m Q1 →
  (∀ a, spec (Q1 (Ok a)) (k a) Q) →
  (∀ e h, Q1 (Throw e) h → Q (Throw e) h) →
  spec P (bind m k) Q.
Proof.
  intros Hm Hk He h h' r HP. unfold bind.
  destruct (m h) as [h1 [a|e]] eqn:Em.
  - intros Hrun. eapply Hk; [|done]. by eapply Hm.
  - intros [= <- <-]. apply He. by eapply Hm.
Qed.

Lemma spec_weaken {A} (P P' : Heap → Prop) (m : M A) (Q Q' : Res A → Heap → Prop) :
  spec P' m Q' → (∀ h, P h → P' h) → (∀ r h, Q' r h → Q r h) → spec P m Q.
Proof. intros Hm HP HQ h h' r Hh Hrun. apply HQ. eapply Hm; [by apply HP | done]. Qed.

Lemma spec_bind_keep {A B} (P : Heap → Prop) (m : M A) (k : A → M B) Q :
  spec P m (λ _, P) →
  (∀ a, spec P (k a) Q) →
  (∀ e h, P h → Q (Throw e) h) →
  spec P (bind m k) Q.
Proof. intros Hm Hk He. by eapply spec_bind. Qed.

Lemma spec_read_keep {A} (P : Heap → Prop) (f : Heap → A) :
  spec P (read f) (λ _, P).
Proof. by apply spec_read. Qed.

Lemma spec_read_bind {A B} (P : Heap → Prop) (f : Heap → A) (k : A → M B) Q :
  (∀ a, spec (λ h, P h ∧ a = f h) (k a) Q) → spec P (bind (read f) k) Q.
Proof.
  intros Hk h h' r HP. unfold bind, read. apply Hk. by split.
Qed.

(** A loop that keeps an invariant, whether it ends or throws. *)
Lemma spec_forM_ {A} (I : Heap → Prop) (f : A → M unit) (xs : list A) :
  (∀ x, x ∈ xs → spec I (f x) (λ _, I)) → spec I (forM_ f xs) (λ _, I).
Proof.
  induction xs as [|x xs IH]; intros Hf; cbn [forM_].
  - by apply spec_ret.
  - eapply spec_bind; [apply Hf; left | | done].
    intros u. apply IH. intros; apply Hf; by right.
Qed.

Lemma spec_mapM {A B} (I : Heap → Prop) (f : A → M B) (xs : list A) :
  (∀ x, x ∈ xs → spec I (f x) (λ _, I)) → spec I (mapM f xs) (λ _, I).
Proof.
  induction xs as [|x xs IH]; intros Hf; cbn [mapM].
  - by apply spec_ret.
  - eapply spec_bind; [apply Hf; left | | done].
    intros y. eapply spec_bind; [apply IH; intros; apply Hf; by right | | done].
    intros ys. by apply spec_ret.
Qed.

(** ** Reading a store after a write *)

Lemma heap_map_insert_eq (h : Heap) l d : heap_map (<[l := CMap d]> h) l = d.
Proof. unfold heap_map. by rewrite lookup_insert_eq. Qed.

Lemma heap_map_insert_ne (h : Heap) l l' c :
  l ≠ l' → heap_map (<[l := c]> h) l' = heap_map h l'.
Proof. intros. unfold heap_map. by rewrite lookup_insert_ne. Qed.

Lemma heap_modeler_insert_ne (h : Heap) l l' c :
  l ≠ l' → heap_modeler (<[l := c]> h) l' = heap_modeler h l'.
Proof. intros. unfold heap_modeler. by rewrite lookup_insert_ne. Qed.

Lemma heap_model_insert_ne (h : Heap) l l' c :
  l ≠ l' → heap_model (<[l := c]> h) l' = heap_model h l'.
Proof. intros. unfold heap_model. by rewrite lookup_insert_ne. Qed.

Lemma heap_association_insert_ne (h : Heap) l l' c :
  l ≠ l' → heap_association (<[l := c]> h) l' = heap_association h l'.
Proof. intros. unfold heap_association. by rewrite lookup_insert_ne. Qed.

Lemma is_map_dom (h : Heap) l : is_map h l = true → l ∈ dom h.
Proof.
  unfold is_map. destruct (h !! l) eqn:E; [|done]. intros _.
  apply elem_of_dom. eauto.
Qed.

Lemma is_map_insert_map (h : Heap) l l' d :
  is_map h l' = true → is_map (<[l := CMap d]> h) l' = true.
Proof.
  unfold is_map. destruct (decide (l = l')) as [->|Hne].
  - by rewrite lookup_insert_eq.
  - by rewrite lookup_insert_ne.
Qed.

Lemma is_map_alloc (h : Heap) l c :
  is_map h l = true → is_map (<[fresh (dom h) := c]> h) l = true.
Proof.
  intros Hl. unfold is_map. rewrite lookup_insert_ne; [done|].
  intros Heq. apply is_map_dom in Hl. rewrite <- Heq in Hl.
  by apply (is_fresh (dom h)).
Qed.

Lemma is_model_not_map (h : Heap) l : is_model h l = true → is_map h l = false.
Proof. unfold is_model, is_map. by destruct (h !! l) as [[]|]. Qed.

Lemma fresh_not_dom (h : Heap) : fresh (dom h) ∉ dom h.
Proof. apply is_fresh. Qed.

Lemma fresh_ne (h : Heap) l : l ∈ dom h → fresh (dom h) ≠ l.
Proof. intros Hl Heq. apply (fresh_not_dom h). by rewrite Heq. Qed.

Lemma lookup_dom_Some (h : Heap) l c : h !! l = Some c → l ∈ dom h.
Proof. intros. apply elem_of_dom. eauto. Qed.

(** ** Values of a dictionary after [set] *)

Lemma dict_values_set {K V} `{EqDecision K} (d : dict K V) k v x :
  x ∈ dict_values (dict_set d k v) → x = v ∨ x ∈ dict_values d.
Proof.
  unfold dict_values. induction d as [|[k' v'] d IH]; cbn [dict_set].
  - rewrite fmap_cons. cbn [snd]. intros [->|[]%elem_of_nil]%elem_of_cons.
    by left.
  - destruct (decide (k' = k)) as [->|Hne]; rewrite !fmap_cons; cbn [snd];
      rewrite !elem_of_cons.
    + intros [->|?]; [by left | by right; right].
    + intros [->|Hx]; [by right; left|].
      destruct (IH Hx) as [->|?]; [by left | by right; right].
Qed.

Lemma dict_get_values {K V} `{EqDecision K} (d : dict K V) k v :
  dict_get d k = Some v → v ∈ dict_values d.
Proof.
  intros Hd%dict_get_Some_elem. unfold dict_values.
  by apply (list_elem_of_fmap_2 snd) in Hd.
Qed.

Lemma dict_get_prefix {K V} `{EqDecision K} (d d' : dict K V) k v :
  d `prefix_of` d' → dict_get d k = Some v → dict_get d' k = Some v.
Proof.
  intros [e ->]. induction d as [|[k' v'] d IH]; [done|].
  cbn [dict_get app]. destruct (decide (k' = k)); [done | apply IH].
Qed.

Lemma dict_values_prefix {K V} (d d' : dict K V) x :
  d `prefix_of` d' → x ∈ dict_values d → x ∈ dict_values d'.
Proof.
  intros [e ->]. unfold dict_values. rewrite fmap_app, elem_of_app. by left.
Qed.

Lemma dict_set_prefix {K V} `{EqDecision K} (d : dict K V) k v :
  dict_get d k = None → d `prefix_of` dict_set d k v.
Proof.
  intros Hd%dict_get_None. rewrite dict_set_absent by done.
  by exists [(k, v)].
Qed.

(** ** The shape of a registry *)

Lemma modeler_wf_inv h this :
  modeler_wf h this = true →
  ∃ me, h !! this = Some (CModeler me) ∧
        heap_modeler h this = me ∧
        is_map h (_models me) = true ∧
        is_map h (_associations me) = true ∧
        _models me ≠ _associations me ∧
        ∀ inner, inner ∈ dict_values (heap_map h (_associations me)) →
                 is_map h inner = true ∧
                 inner ≠ _models me ∧ inner ≠ _associations me.
Proof.
  unfold modeler_wf, heap_modeler.
  destruct (h !! this) as [[| | |me]|] eqn:E; try done.
  rewrite !andb_true_iff, negb_true_iff, bool_decide_eq_false, forallb_forall.
  intros [[[Hm Ha] Hne] Hinner]. exists me. repeat split; try done.
  all: apply list_elem_of_In, Hinner in H;
    rewrite !andb_true_iff, !negb_true_iff, !bool_decide_eq_false in H;
    tauto.
Qed.

Lemma modeler_wf_intro h this me :
  h !! this = Some (CModeler me) →
  is_map h (_models me) = true →
  is_map h (_associations me) = true →
  _models me ≠ _associations me →
  (∀ inner, inner ∈ dict_values (heap_map h (_associations me)) →
            is_map h inner = true ∧
            inner ≠ _models me ∧ inner ≠ _associations me) →
  modeler_wf h this = true.
Proof.
  intros Hthis Hm Ha Hne Hinner. unfold modeler_wf. rewrite Hthis, Hm, Ha.
  rewrite (bool_decide_eq_false_2 _ Hne). cbn [andb negb].
  apply forallb_forall. intros inner Hin%list_elem_of_In.
  destruct (Hinner inner Hin) as (-> & Hn1 & Hn2).
  by rewrite (bool_decide_eq_false_2 _ Hn1), (bool_decide_eq_false_2 _ Hn2).
Qed.

Lemma is_map_not_modeler h l me :
  is_map h l = true → h !! l = Some (CModeler me) → False.
Proof. unfold is_map. intros Hm Hl. by rewrite Hl in Hm. Qed.

Lemma later_store_refl this h :
  modeler_wf h this = true → later_store this h h.
Proof. intros Hwf. repeat split; try done. intros l Hl. by left. Qed.

Lemma later_store_modeler this h0 h :
  later_store this h0 h → heap_modeler h this = heap_modeler h0 this.
Proof. intros (_ & Hthis & _). unfold heap_modeler. by rewrite Hthis. Qed.

(** A cell is added. *)
Lemma later_store_alloc this h0 h c :
  later_store this h0 h → later_store this h0 (<[fresh (dom h) := c]> h).
Proof.
  intros (Hdom & Hthis & Hwf & Hw & Hframe).
  destruct (modeler_wf_inv _ _ Hwf) as (me & Hme & Hhm & Hm & Ha & Hne & Hinner).
  assert (∀ l, l ∈ dom h → <[fresh (dom h) := c]> h !! l = h !! l) as Hsame.
  { intros l Hl. apply lookup_insert_ne. by apply fresh_ne. }
  assert (heap_modeler (<[fresh (dom h) := c]> h) this = me) as Hhm'.
  { rewrite heap_modeler_insert_ne; [done|].
    apply fresh_ne. by eapply lookup_dom_Some. }
  assert (heap_map (<[fresh (dom h) := c]> h) (_associations me)
          = heap_map h (_associations me)) as Houter.
  { apply heap_map_insert_ne, fresh_ne. by apply is_map_dom. }
  split; [|split; [|split; [|split]]].
  - rewrite dom_insert_L. set_solver.
  - rewrite Hsame; [done|]. by eapply lookup_dom_Some.
  - apply (modeler_wf_intro _ _ me).
    + rewrite Hsame; [done|]. by eapply lookup_dom_Some.
    + unfold is_map. rewrite Hsame by (by apply is_map_dom). done.
    + unfold is_map. rewrite Hsame by (by apply is_map_dom). done.
    + done.
    + rewrite Houter. intros inner Hin.
      destruct (Hinner inner Hin) as (Hi & ? & ?). repeat split; try done.
      unfold is_map. rewrite Hsame by (by apply is_map_dom). done.
  - intros l Hl. apply Hw. unfold writable in *.
    rewrite Hhm', Houter in Hl. by rewrite Hhm.
  - intros l Hl Hnw. rewrite Hsame; [by apply Hframe|]. by apply Hdom.
Qed.

(** A [Map] of the registry is written.  When it is [_associations], the
    [Map]s it now holds must be [Map]s apart from the outer ones, and ones
    the registry had in [h0] or ones made since. *)
Lemma later_store_update this h0 h x d :
  later_store this h0 h →
  writable h this x →
  (x = _associations (heap_modeler h this) →
   ∀ v, v ∈ dict_values d →
        is_map h v = true ∧
        v ≠ _models (heap_modeler h this) ∧
        v ≠ _associations (heap_modeler h this) ∧
        (writable h0 this v ∨ v ∉ dom h0)) →
  later_store this h0 (<[x := CMap d]> h).
Proof.
  intros (Hdom & Hthis & Hwf & Hw & Hframe) Hx Hd.
  destruct (modeler_wf_inv _ _ Hwf) as (me & Hme & Hhm & Hm & Ha & Hne & Hinner).
  rewrite Hhm in Hd.
  assert (is_map h x = true) as Hxmap.
  { destruct Hx as [->|[->|Hx]]; rewrite ?Hhm; try done.
    rewrite Hhm in Hx. by apply Hinner. }
  assert (x ≠ this) as Hxthis.
  { intros ->. by eapply is_map_not_modeler. }
  assert (heap_modeler (<[x := CMap d]> h) this = me) as Hhm'.
  { by rewrite heap_modeler_insert_ne. }
  split; [|split; [|split; [|split]]].
  - rewrite dom_insert_L. set_solver.
  - by rewrite lookup_insert_ne.
  - apply (modeler_wf_intro _ _ me).
    + by rewrite lookup_insert_ne.
    + by apply is_map_insert_map.
    + by apply is_map_insert_map.
    + done.
    + intros inner Hin. destruct (decide (x = _associations me)) as [->|Hxa].
      * rewrite heap_map_insert_eq in Hin.
        destruct (Hd eq_refl inner Hin) as (Hi & ? & ? & _).
        repeat split; try done. by apply is_map_insert_map.
      * rewrite heap_map_insert_ne in Hin by done.
        destruct (Hinner inner Hin) as (Hi & ? & ?).
        repeat split; try done. by apply is_map_insert_map.
  - intros l Hl. unfold writable in Hl. rewrite Hhm' in Hl.
    destruct Hl as [->|[->|Hl]].
    + apply Hw. left. by rewrite Hhm.
    + apply Hw. right; left. by rewrite Hhm.
    + destruct (decide (x = _associations me)) as [->|Hxa].
      * rewrite heap_map_insert_eq in Hl. by destruct (Hd eq_refl l Hl) as (_ & _ & _ & ?).
      * rewrite heap_map_insert_ne in Hl by done.
        apply Hw. right; right. by rewrite Hhm.
  - intros l Hl Hnw. rewrite lookup_insert_ne; [by apply Hframe|].
    intros ->. destruct (Hw l Hx) as [?|?]; done.
Qed.

Lemma later_store_unchanged this h0 h l :
  later_store this h0 h → l ∈ dom h0 → ¬ writable h0 this l → h !! l = h0 !! l.
Proof. intros (_ & _ & _ & _ & Hframe). apply Hframe. Qed.

Lemma later_store_trans this h0 h1 h2 :
  later_store this h0 h1 → later_store this h1 h2 → later_store this h0 h2.
Proof.
  intros (Hdom1 & Hthis1 & Hwf1 & Hw1 & Hf1) (Hdom2 & Hthis2 & Hwf2 & Hw2 & Hf2).
  split; [|split; [|split; [|split]]].
  - set_solver.
  - congruence.
  - done.
  - intros l Hl. destruct (Hw2 l Hl) as [Hl1|Hl1].
    + by apply Hw1.
    + right. set_solver.
  - intros l Hl Hnw. rewrite Hf2; [by apply Hf1 | by apply Hdom1 |].
    intros Hl1. destruct (Hw1 l Hl1); done.
Qed.

(** ** Stores reached without [_addModel] *)

Lemma grown_store_later this h0 h : grown_store this h0 h → later_store this h0 h.
Proof. by intros [? _]. Qed.

Lemma grown_store_refl this h :
  modeler_wf h this = true → grown_store this h h.
Proof. intros Hwf. split; [by apply later_store_refl|]. done. Qed.

Lemma grown_store_alloc this h0 h c :
  grown_store this h0 h → grown_store this h0 (<[fresh (dom h) := c]> h).
Proof.
  intros (Hlater & G1 & G2 & G3).
  pose proof (later_store_modeler _ _ _ Hlater) as Hhm.
  destruct Hlater as (Hdom & Hthis & Hwf & Hw & Hframe).
  destruct (modeler_wf_inv _ _ Hwf) as (me & Hme & Hhm' & Hm & Ha & Hne & Hinner).
  rewrite Hhm in Hhm'. subst me.
  split; [apply later_store_alloc; by repeat split|].
  split; [|split].
  - rewrite heap_map_insert_ne; [done|]. by apply fresh_ne, is_map_dom.
  - rewrite heap_map_insert_ne; [done|]. by apply fresh_ne, is_map_dom.
  - intros inner Hin. rewrite heap_map_insert_ne; [by apply G3|].
    apply fresh_ne, is_map_dom, Hinner. by eapply dict_values_prefix.
Qed.

(** [_associations] gains an entry for a name it did not have. *)
Lemma grown_store_new_inner this h0 h k v :
  grown_store this h0 h →
  dict_get (heap_map h (_associations (heap_modeler h0 this))) k = None →
  is_map h v = true →
  v ≠ _models (heap_modeler h0 this) →
  v ≠ _associations (heap_modeler h0 this) →
  v ∉ dom h0 →
  grown_store this h0
    (<[_associations (heap_modeler h0 this) :=
         CMap (dict_set (heap_map h (_associations (heap_modeler h0 this))) k v)]> h).
Proof.
  intros (Hlater & G1 & G2 & G3) Hk Hv Hv1 Hv2 Hv3.
  pose proof (later_store_modeler _ _ _ Hlater) as Hhm.
  pose proof Hlater as (Hdom & Hthis & Hwf & Hw & Hframe).
  destruct (modeler_wf_inv _ _ Hwf) as (me & Hme & Hhm' & Hm & Ha & Hne & Hinner).
  rewrite Hhm in Hhm'. subst me.
  split; [|split; [|split]].
  - apply later_store_update; [done | right; left; by rewrite Hhm |].
    rewrite Hhm. intros _ x [->|Hx]%dict_values_set.
    + repeat split; try done. by right.
    + destruct (Hinner x Hx) as (? & ? & ?). repeat split; try done.
      apply Hw. right; right. by rewrite Hhm.
  - rewrite heap_map_insert_ne by done. done.
  - rewrite heap_map_insert_eq. etransitivity; [exact G2|].
    by apply dict_set_prefix.
  - intros inner Hin. rewrite heap_map_insert_ne; [by apply G3|].
    intros Heq. apply (dict_values_prefix _ _ _ G2), Hinner in Hin.
    by destruct Hin as (_ & _ & ?).
Qed.

(** An inner [Map] gains an entry for a name it did not have. *)
Lemma grown_store_new_entry this h0 h inner k v :
  grown_store this h0 h →
  inner ∈ dict_values (heap_map h (_associations (heap_modeler h0 this))) →
  dict_get (heap_map h inner) k = None →
  grown_store this h0 (<[inner := CMap (dict_set (heap_map h inner) k v)]> h).
Proof.
  intros (Hlater & G1 & G2 & G3) Hin Hk.
  pose proof (later_store_modeler _ _ _ Hlater) as Hhm.
  pose proof Hlater as (Hdom & Hthis & Hwf & Hw & Hframe).
  destruct (modeler_wf_inv _ _ Hwf) as (me & Hme & Hhm' & Hm & Ha & Hne & Hinner).
  rewrite Hhm in Hhm'. subst me.
  destruct (Hinner inner Hin) as (Himap & Hi1 & Hi2).
  split; [|split; [|split]].
  - apply later_store_update; [done | right; right; by rewrite Hhm |].
    rewrite Hhm. done.
  - rewrite heap_map_insert_ne by done. done.
  - rewrite heap_map_insert_ne by done. done.
  - intros inner' Hin'. destruct (decide (inner = inner')) as [<-|Hne'].
    + rewrite heap_map_insert_eq. etransitivity; [by apply G3|].
      by apply dict_set_prefix.
    + rewrite heap_map_insert_ne by done. by apply G3.
Qed.

(** ** The methods that register associations *)

Section grown_methods.
Variables (this : loc) (h0 : Heap).

Lemma ensureAssocMap_grown modelName :
  spec (grown_store this h0) (ensureAssocMap this modelName)
    (λ r h, grown_store this h0 h ∧
            ∀ map, r = Ok map →
                   dict_get (heap_map h (_associations (heap_modeler h0 this)))
                            modelName = Some map).
Proof.
  intros h h' r Hg. pose proof (later_store_modeler _ _ _ (grown_store_later _ _ _ Hg)) as Hhm.
  cbv [ensureAssocMap bind read Map_get ret alloc Map_set]. rewrite Hhm.
  destruct (dict_get (heap_map h _) modelName) as [map|] eqn:E.
  - intros [= <- <-]. split; [done|]. by intros ? [= <-].
  - intros [= <- <-].
    pose proof Hg as ((Hdom & Hthis & Hwf & Hw & Hframe) & _).
    destruct (modeler_wf_inv _ _ Hwf) as (me & Hme & Hhm' & Hm & Ha & Hne & Hinner).
    rewrite Hhm in Hhm'. subst me.
    assert (heap_map (<[fresh (dom h) := CMap []]> h)
              (_associations (heap_modeler h0 this))
            = heap_map h (_associations (heap_modeler h0 this))) as Houter.
    { apply heap_map_insert_ne, fresh_ne. by apply is_map_dom. }
    split.
    + apply grown_store_new_inner.
      * by apply grown_store_alloc.
      * by rewrite Houter.
      * unfold is_map. by rewrite lookup_insert_eq.
      * apply fresh_ne. by apply is_map_dom.
      * apply fresh_ne. by apply is_map_dom.
      * intros Hin. apply (fresh_not_dom h). by apply Hdom.
    + intros map [= <-]. rewrite heap_map_insert_eq. apply dict_get_set_eq.
Qed.

Lemma getModel_grown name' noThrow :
  spec (grown_store this h0) (getModel this name' noThrow)
       (λ _, grown_store this h0).
Proof.
  unfold getModel.
  apply spec_bind_keep; [apply spec_read_keep | | done]. intros models.
  apply spec_bind_keep; [apply spec_read_keep | | done]. intros [model|].
  - apply spec_bind_keep; [apply spec_read_keep | | done]. intros m.
    eapply spec_bind; [apply ensureAssocMap_grown | | by intros ? ? [? _]].
    intros map. apply spec_ret. by intros ? [? _].
  - destruct (negb noThrow); [by apply spec_throw | by apply spec_ret].
Qed.

Lemma getModel_or_throw_grown name' :
  spec (grown_store this h0) (getModel_or_throw this name')
       (λ _, grown_store this h0).
Proof.
  unfold getModel_or_throw.
  apply spec_bind_keep; [apply getModel_grown | | done].
  intros [model|]; [by apply spec_ret | by apply spec_throw].
Qed.

Lemma alloc_grown c :
  spec (grown_store this h0) (alloc c) (λ _, grown_store this h0).
Proof. apply spec_alloc. intros h Hg. by apply grown_store_alloc. Qed.

Lemma buildAssociation_grown sourceModelName call :
  spec (grown_store this h0) (buildAssociation this sourceModelName call)
       (λ _, grown_store this h0).
Proof.
  unfold buildAssociation.
  apply spec_bind_keep; [apply spec_read_keep | | done]. intros dpk.
  apply spec_bind_keep; [apply spec_read_keep | | done]. intros suffix.
  destruct call as [tgt opts|tgt opts|tgt al opts|tgt thr opts].
  - apply spec_bind_keep; [apply getModel_or_throw_grown | | done]. intros src.
    apply spec_bind_keep; [apply getModel_or_throw_grown | | done]. intros tg.
    apply alloc_grown.
  - apply spec_bind_keep; [apply getModel_or_throw_grown | | done]. intros src.
    apply spec_bind_keep; [apply getModel_or_throw_grown | | done]. intros tg.
    apply alloc_grown.
  - destruct (decide (al = "")); [by apply spec_throw|].
    apply spec_bind_keep; [apply getModel_or_throw_grown | | done]. intros src.
    apply spec_bind_keep; [apply getModel_or_throw_grown | | done]. intros tg.
    apply alloc_grown.
  - apply spec_bind_keep; [apply getModel_or_throw_grown | | done]. intros src.
    apply spec_bind_keep; [apply getModel_or_throw_grown | | done]. intros tg.
    apply spec_bind_keep; [apply getModel_grown | | done].
    intros [throughModel|]; [apply alloc_grown | by apply spec_throw].
Qed.

Lemma registerAssociation_grown sourceModelName association :
  spec (grown_store this h0)
       (registerAssociation this sourceModelName association)
       (λ _, grown_store this h0).
Proof.
  unfold registerAssociation.
  eapply spec_bind; [apply ensureAssocMap_grown | | by intros ? ? [? _]].
  intros map. apply spec_read_bind. intros [a|]; [|apply spec_ret; by intros ? [[? _] _]].
  intros h h' r [[Hg Hmap] _]. cbv [bind Map_has read Map_set ret dict_has].
  destruct (dict_get (heap_map h map) (as_ a)) eqn:E; cbn [negb].
  - by intros [= <- <-].
  - intros [= <- <-]. apply grown_store_new_entry; [done | | done].
    eapply dict_get_values. by apply Hmap.
Qed.

Lemma associate_grown sourceModelName builderFn :
  spec (grown_store this h0) (associate this sourceModelName builderFn)
       (λ _, grown_store this h0).
Proof.
  unfold associate.
  apply spec_bind_keep; [|intros associations|done].
  - apply spec_mapM. intros; apply buildAssociation_grown.
  - apply spec_forM_. intros; apply registerAssociation_grown.
Qed.
End grown_methods.

(** ** Every method keeps the registry apart from the rest of the store *)

Section later_methods.
Variables (this : loc) (h0 : Heap).

Lemma _addModel_later name' attrs primaryKey' :
  spec (later_store this h0) (_addModel this name' attrs primaryKey')
       (λ _, later_store this h0).
Proof.
  intros h h' r Hl. cbv [_addModel bind read Map_has Map_set alloc ret].
  destruct (negb (dict_has _ name')); [|by intros [= <- <-]].
  intros [= <- <-].
  set (h1 := <[fresh (dom h) := CModel (new_HydraModel name' attrs primaryKey')]> h).
  assert (later_store this h0 h1) as Hl1 by (by apply later_store_alloc).
  pose proof (later_store_modeler _ _ _ Hl) as Hhm.
  pose proof (later_store_modeler _ _ _ Hl1) as Hhm1.
  set (h2 := <[_models (heap_modeler h this) :=
                 CMap (dict_set (heap_map h1 (_models (heap_modeler h this)))
                                name' (fresh (dom h)))]> h1).
  assert (later_store this h0 h2) as Hl2.
  { apply later_store_update; [done | left; by rewrite Hhm, Hhm1 |].
    rewrite Hhm1, Hhm. intros Heq.
    destruct Hl as (_ & _ & Hwf & _).
    destruct (modeler_wf_inv _ _ Hwf) as (me & _ & Hme & _ & _ & Hne & _).
    rewrite Hhm in Hme. subst me. done. }
  pose proof (later_store_modeler _ _ _ Hl2) as Hhm2. rewrite Hhm2.
  set (h3 := <[fresh (dom h2) := CMap []]> h2).
  assert (later_store this h0 h3) as Hl3 by (by apply later_store_alloc).
  pose proof (later_store_modeler _ _ _ Hl3) as Hhm3.
  pose proof Hl2 as (Hdom2 & _ & Hwf2 & Hw2 & _).
  destruct (modeler_wf_inv _ _ Hwf2) as (me & _ & Hme & Hm & Ha & Hne & Hinner).
  rewrite Hhm2 in Hme. subst me.
  assert (heap_map h3 (_associations (heap_modeler h0 this))
          = heap_map h2 (_associations (heap_modeler h0 this))) as Houter.
  { apply heap_map_insert_ne, fresh_ne. by apply is_map_dom. }
  apply later_store_update; [done | right; left; by rewrite Hhm3 |].
  rewrite Hhm3. intros _ v [->|Hv]%dict_values_set.
  - split; [unfold is_map, h3; by rewrite lookup_insert_eq|].
    split; [apply fresh_ne; by apply is_map_dom|].
    split; [apply fresh_ne; by apply is_map_dom|].
    right. intros Hin. apply (fresh_not_dom h2). by apply Hdom2.
  - rewrite Houter in Hv. destruct (Hinner v Hv) as (Hv1 & Hv2 & Hv3).
    split; [by apply is_map_alloc|]. split; [done|]. split; [done|].
    apply Hw2. right; right. by rewrite Hhm2.
Qed.

Lemma addModels_later adds :
  spec (later_store this h0) (addModels this adds) (λ _, later_store this h0).
Proof.
  unfold addModels. apply spec_forM_. intros [[name' attrs] primaryKey'] _.
  apply _addModel_later.
Qed.

Lemma grown_later_spec {A} (m : M A) :
  (∀ h1, spec (grown_store this h1) m (λ _, grown_store this h1)) →
  spec (later_store this h0) m (λ _, later_store this h0).
Proof.
  intros Hm h h' r Hl Hrun. eapply later_store_trans; [done|].
  apply grown_store_later. eapply (Hm h); [|done].
  apply grown_store_refl. by destruct Hl as (_ & _ & ? & _).
Qed.

Lemma mutate_later mu h :
  later_store this h0 h → later_store this h0 (mutate this mu h).
Proof.
  intros Hl. destruct mu as [adds|src calls|name' noThrow|modelName];
    cbn [mutate].
  - destruct (addModels this adds h) as [h' r] eqn:E.
    by eapply addModels_later.
  - destruct (associate this src calls h) as [h' r] eqn:E.
    eapply (grown_later_spec (associate this src calls)); [|done|done].
    intros h1. apply associate_grown.
  - destruct (getModel this name' noThrow h) as [h' r] eqn:E.
    eapply (grown_later_spec (getModel this name' noThrow)); [|done|done].
    intros h1. apply getModel_grown.
  - destruct (getAssociations this modelName h) as [h' r] eqn:E.
    eapply (grown_later_spec (getAssociations this modelName)); [|done|done].
    intros h1. eapply spec_weaken; [apply ensureAssocMap_grown | done |].
    by intros ? ? [? _].
Qed.

Lemma mutations_later mus h :
  later_store this h0 h → later_store this h0 (mutations this mus h).
Proof.
  unfold mutations. revert h. induction mus as [|mu mus IH]; intros h Hl; [done|].
  cbn [foldl]. apply IH. by apply mutate_later.
Qed.
End later_methods.

(** * The first registration wins *)

Lemma _addModel_duplicate h this name' attrs primaryKey' :
  registered h this name' = true →
  _addModel this name' attrs primaryKey' h = (h, Ok ()).
Proof.
  unfold registered. intros Hhas.
  cbv [_addModel bind read Map_has Map_set alloc ret]. by rewrite Hhas.
Qed.

Lemma ensureAssocMap_returns this modelName h :
  ∃ h' map, ensureAssocMap this modelName h = (h', Ok map).
Proof.
  cbv [ensureAssocMap bind read Map_get ret alloc Map_set].
  destruct (dict_get _ modelName); eauto.
Qed.

Lemma registerAssociation_returns this sourceModelName association h :
  ∃ h', registerAssociation this sourceModelName association h = (h', Ok ()).
Proof.
  unfold registerAssociation.
  destruct (ensureAssocMap_returns this sourceModelName h) as (h1 & map & Hrun).
  rewrite (bind_Ok _ _ _ _ _ Hrun).
  cbv [bind read Map_has Map_set ret].
  destruct (heap_association h1 association); [|eauto].
  destruct (negb _); eauto.
Qed.

Lemma registration_loop_returns this sourceModelName associations h :
  ∃ h', forM_ (registerAssociation this sourceModelName) associations h
        = (h', Ok ()).
Proof.
  revert h. induction associations as [|a rest IH]; intros h; cbn [forM_].
  - by eexists.
  - destruct (registerAssociation_returns this sourceModelName a h) as [h1 Hrun].
    rewrite (bind_Ok _ _ _ _ _ Hrun). apply IH.
Qed.

Lemma getModel_or_throw_run h this name' :
  registry_ok h this = true →
  getModel_or_throw this name' h =
  (h, match dict_get (heap_map h (_models (heap_modeler h this))) name' with
      | None => Throw (ModelNotRegisteredError name')
      | Some model =>
          Ok {| name := _name (heap_model h model);
                attributes := _attributes (heap_model h model);
                primaryKey := _primaryKey (heap_model h model);
                associations :=
                  default model
                    (dict_get (heap_map h (_associations (heap_modeler h this)))
                              name') |}
      end).
Proof.
  intros Hok. unfold getModel_or_throw, bind. rewrite getModel_run by done.
  by destruct (dict_get _ name').
Qed.

Lemma getModel_or_throw_registered h this name' :
  registry_ok h this = true →
  registered h this name' = true →
  ∃ model, getModel_or_throw this name' h = (h, Ok model).
Proof.
  intros Hok. unfold registered, dict_has. rewrite getModel_or_throw_run by done.
  destruct (dict_get _ name'); [eauto | done].
Qed.

Lemma getModel_registered h this name' noThrow :
  registry_ok h this = true →
  registered h this name' = true →
  ∃ model, getModel this name' noThrow h = (h, Ok (Some model)).
Proof.
  intros Hok. unfold registered, dict_has. rewrite getModel_run by done.
  destruct (dict_get _ name'); [eauto | done].
Qed.

(** A valid call builds its association object and changes nothing else. *)
Lemma buildAssociation_valid h this sourceModelName call :
  registry_ok h this = true →
  call_valid h this sourceModelName call = true →
  ∃ a, as_ a = call_as call ∧
       buildAssociation this sourceModelName call h
       = (<[fresh (dom h) := CAssociation a]> h, Ok (fresh (dom h))).
Proof.
  intros Hok. unfold call_valid. rewrite andb_true_iff. intros [Hsrc Hcall].
  destruct (getModel_or_throw_registered _ _ _ Hok Hsrc) as [src Esrc].
  unfold buildAssociation.
  rewrite (bind_Ok _ _ h h _ eq_refl), (bind_Ok _ _ h h _ eq_refl).
  destruct call as [t opts|t opts|t al opts|t thr opts]; cbn [call_as].
  - destruct (getModel_or_throw_registered _ _ _ Hok Hcall) as [tg Etg].
    rewrite (bind_Ok _ _ _ _ _ Esrc), (bind_Ok _ _ _ _ _ Etg).
    eexists; split; [|reflexivity]; reflexivity.
  - destruct (getModel_or_throw_registered _ _ _ Hok Hcall) as [tg Etg].
    rewrite (bind_Ok _ _ _ _ _ Esrc), (bind_Ok _ _ _ _ _ Etg).
    eexists; split; [|reflexivity]; reflexivity.
  - apply andb_true_iff in Hcall as [Hal Ht].
    apply negb_true_iff, bool_decide_eq_false in Hal.
    rewrite decide_False by done.
    destruct (getModel_or_throw_registered _ _ _ Hok Ht) as [tg Etg].
    rewrite (bind_Ok _ _ _ _ _ Esrc), (bind_Ok _ _ _ _ _ Etg).
    eexists; split; [|reflexivity]; reflexivity.
  - apply andb_true_iff in Hcall as [Ht Hthr].
    destruct (getModel_or_throw_registered _ _ _ Hok Ht) as [tg Etg].
    destruct (getModel_registered _ _ _ true Hok Hthr) as [th Eth].
    rewrite (bind_Ok _ _ _ _ _ Esrc), (bind_Ok _ _ _ _ _ Etg),
      (bind_Ok _ _ _ _ _ Eth).
    eexists; split; [|reflexivity]; reflexivity.
Qed.

(** Whatever [associate] is called with, an entry that was there stays. *)
Lemma grown_store_entry this h h' sourceModelName inner as' existing a :
  modeler_wf h this = true →
  grown_store this h h' →
  dict_get (heap_map h (_associations (heap_modeler h this))) sourceModelName
    = Some inner →
  dict_get (heap_map h inner) as' = Some existing →
  heap_association h existing = Some a →
  dict_get (heap_map h' (_associations (heap_modeler h' this))) sourceModelName
    = Some inner ∧
  dict_get (heap_map h' inner) as' = Some existing ∧
  heap_association h' existing = Some a.
Proof.
  intros Hwf (Hlater & G1 & G2 & G3) Hinner Hentry Ha.
  rewrite (later_store_modeler _ _ _ Hlater).
  split; [by eapply dict_get_prefix|]. split.
  - eapply dict_get_prefix; [|done]. apply G3. by eapply dict_get_values.
  - unfold heap_association in *.
    destruct (h !! existing) as [[|a'| |]|] eqn:E; try done.
    rewrite (later_store_unchanged _ _ _ _ Hlater), E; [done| |].
    + by eapply lookup_dom_Some.
    + destruct (modeler_wf_inv _ _ Hwf) as (me & _ & Hme & Hm & Hm' & _ & Hin).
      unfold writable. rewrite Hme.
      intros [->|[->|Hx]].
      * unfold is_map in Hm. by rewrite E in Hm.
      * unfold is_map in Hm'. by rewrite E in Hm'.
      * apply Hin in Hx as [Hx _]. unfold is_map in Hx. by rewrite E in Hx.
Qed.

(** A valid call whose output name is taken: the object it built is left
    aside and the store is otherwise as before. *)
Lemma associate_duplicate h this sourceModelName call inner existing :
  modeler_wf h this = true →
  registry_ok h this = true →
  call_valid h this sourceModelName call = true →
  dict_get (heap_map h (_associations (heap_modeler h this))) sourceModelName
    = Some inner →
  dict_get (heap_map h inner) (call_as call) = Some existing →
  ∃ discarded,
    associate this sourceModelName [call] h
    = (<[fresh (dom h) := CAssociation discarded]> h, Ok ()).
Proof.
  intros Hwf Hok Hvalid Hinner Hentry.
  destruct (buildAssociation_valid _ _ _ _ Hok Hvalid) as (b & Hb & Hbuild).
  exists b. unfold associate.
  assert (mapM (buildAssociation this sourceModelName) [call] h
          = (<[fresh (dom h) := CAssociation b]> h, Ok [fresh (dom h)])) as Hmap.
  { cbn [mapM]. by rewrite (bind_Ok _ _ _ _ _ Hbuild). }
  rewrite (bind_Ok _ _ _ _ _ Hmap). cbn [forM_].
  destruct (modeler_wf_inv _ _ Hwf) as (me & Hme & Hhm & Hm & Ha & Hne & Hin).
  set (h1 := <[fresh (dom h) := CAssociation b]> h).
  assert (heap_modeler h1 this = me) as Hhm1.
  { unfold h1. rewrite heap_modeler_insert_ne; [done|].
    apply fresh_ne. by eapply lookup_dom_Some. }
  assert (heap_map h1 (_associations me) = heap_map h (_associations me)) as Ho.
  { apply heap_map_insert_ne, fresh_ne. by apply is_map_dom. }
  rewrite Hhm in Hinner.
  assert (heap_map h1 inner = heap_map h inner) as Hi.
  { apply heap_map_insert_ne, fresh_ne, is_map_dom, Hin.
    by eapply dict_get_values. }
  assert (registerAssociation this sourceModelName (fresh (dom h)) h1
          = (h1, Ok ())) as Hreg.
  { cbv [registerAssociation ensureAssocMap bind read Map_get Map_has Map_set
         ret alloc].
    rewrite Hhm1, Ho, Hinner. unfold heap_association, h1 at 1.
    rewrite lookup_insert_eq, Hi, Hb. unfold dict_has. by rewrite Hentry. }
  by rewrite (bind_Ok _ _ _ _ _ Hreg).
Qed.

(** C10: a model added under a name that is registered changes nothing and
    returns.  In a call of [associate], whatever it registers, the entry
    that a source model has under an output name stays the same object with
    the same content, and the registration loop throws nothing.  A call
    that names registered models and an output name that is taken returns,
    its association object left aside and no cell of the store changed. *)
Theorem first_registration_wins (h : Heap) (this : loc) :
  modeler_wf h this = true →
  (∀ name' attrs primaryKey',
     registered h this name' = true →
     _addModel this name' attrs primaryKey' h = (h, Ok ())) ∧
  (∀ sourceModelName builderFn h' r,
     associate this sourceModelName builderFn h = (h', r) →
     ((∃ h1 built,
         mapM (buildAssociation this sourceModelName) builderFn h
         = (h1, Ok built)) →
      r = Ok ()) ∧
     ∀ inner as' existing a,
       dict_get (heap_map h (_associations (heap_modeler h this)))
                sourceModelName = Some inner →
       dict_get (heap_map h inner) as' = Some existing →
       heap_association h existing = Some a →
       dict_get (heap_map h' (_associations (heap_modeler h' this)))
                sourceModelName = Some inner ∧
       dict_get (heap_map h' inner) as' = Some existing ∧
       heap_association h' existing = Some a) ∧
  (∀ sourceModelName call inner existing,
     registry_ok h this = true →
     call_valid h this sourceModelName call = true →
     dict_get (heap_map h (_associations (heap_modeler h this)))
              sourceModelName = Some inner →
     dict_get (heap_map h inner) (call_as call) = Some existing →
     ∃ discarded,
       associate this sourceModelName [call] h
       = (<[fresh (dom h) := CAssociation discarded]> h, Ok ())).
Proof.
  intros Hwf. split; [|split].
  - intros. by apply _addModel_duplicate.
  - intros sourceModelName builderFn h' r Hrun. split.
    + intros (h1 & built & Hbuilt). unfold associate in Hrun.
      rewrite (bind_Ok _ _ _ _ _ Hbuilt) in Hrun.
      destruct (registration_loop_returns this sourceModelName built h1)
        as [h2 Hloop].
      rewrite Hloop in Hrun. by injection Hrun as <- <-.
    + intros inner as' existing a. apply grown_store_entry; [done|].
      eapply (associate_grown this h); [|done]. by apply grown_store_refl.
  - intros. by eapply associate_duplicate.
Qed.

(** * The shape of a registry is kept *)

Lemma registry_inv_inv h this :
  registry_inv h this = true →
  modeler_wf h this = true ∧ registry_ok h this = true ∧
  ∀ l, l ∈ dict_values (heap_map h (_models (heap_modeler h this))) →
       is_model h l = true.
Proof.
  unfold registry_inv. rewrite !andb_true_iff, forallb_forall.
  intros [[? ?] Hmodels]. repeat split; try done.
  intros l Hl. by apply Hmodels, list_elem_of_In.
Qed.

Lemma registry_inv_intro h this :
  modeler_wf h this = true →
  (∀ k l, (k, l) ∈ heap_map h (_models (heap_modeler h this)) →
          dict_has (heap_map h (_associations (heap_modeler h this))) k = true ∧
          _name (heap_model h l) = k ∧ is_model h l = true) →
  registry_inv h this = true.
Proof.
  intros Hwf Hentries. unfold registry_inv, registry_ok.
  rewrite Hwf. cbn [andb]. apply andb_true_iff. split.
  - apply forallb_forall. intros [k l] Hin%list_elem_of_In.
    destruct (Hentries k l Hin) as (Hhas & Hname & _). cbn [fst snd].
    rewrite Hhas. by apply bool_decide_eq_true.
  - apply forallb_forall. intros l Hl%list_elem_of_In.
    apply list_elem_of_fmap in Hl as ([k l'] & -> & Hin).
    by destruct (Hentries k l' Hin) as (_ & _ & ?).
Qed.

Lemma registry_inv_entry h this k l :
  registry_inv h this = true →
  (k, l) ∈ heap_map h (_models (heap_modeler h this)) →
  dict_has (heap_map h (_associations (heap_modeler h this))) k = true ∧
  _name (heap_model h l) = k ∧ is_model h l = true.
Proof.
  intros (Hwf & Hok & Hmodels)%registry_inv_inv Hin.
  unfold registry_ok in Hok. rewrite forallb_forall in Hok.
  pose proof (Hok _ (proj1 (list_elem_of_In _ _) Hin)) as Hkl.
  cbn [fst snd] in Hkl. apply andb_true_iff in Hkl as [? ?%bool_decide_eq_true].
  repeat split; try done. apply Hmodels.
  by apply (list_elem_of_fmap_2 snd) in Hin.
Qed.

Lemma is_model_unwritable h this l :
  modeler_wf h this = true → is_model h l = true → ¬ writable h this l.
Proof.
  intros Hwf Hl%is_model_not_map.
  destruct (modeler_wf_inv _ _ Hwf) as (me & _ & Hme & Hm & Ha & _ & Hin).
  unfold writable. rewrite Hme. intros [->|[->|Hx]]; [congruence..|].
  apply Hin in Hx as [Hx _]. congruence.
Qed.

Lemma is_model_dom (h : Heap) l : is_model h l = true → l ∈ dom h.
Proof.
  unfold is_model. destruct (h !! l) eqn:E; [|done]. intros _.
  by eapply lookup_dom_Some.
Qed.

Lemma dict_has_prefix {K V} `{EqDecision K} (d d' : dict K V) k :
  d `prefix_of` d' → dict_has d k = true → dict_has d' k = true.
Proof.
  intros Hpre. unfold dict_has. destruct (dict_get d k) eqn:E; [|done].
  by rewrite (dict_get_prefix _ _ _ _ Hpre E).
Qed.

Lemma dict_has_set {K V} `{EqDecision K} (d : dict K V) k v k' :
  dict_has (dict_set d k v) k' = true ↔ k = k' ∨ dict_has d k' = true.
Proof.
  unfold dict_has. destruct (decide (k = k')) as [->|Hne].
  - rewrite dict_get_set_eq. split; [by left | done].
  - rewrite dict_get_set_ne by done. split; [by right | by intros [?|?]].
Qed.

(** The methods that do not add models keep the shape. *)
Lemma grown_store_inv this h h' :
  registry_inv h this = true → grown_store this h h' →
  registry_inv h' this = true.
Proof.
  intros Hinv (Hlater & G1 & G2 & G3).
  pose proof (registry_inv_inv _ _ Hinv) as (Hwf & _ & _).
  pose proof (later_store_modeler _ _ _ Hlater) as Hhm.
  apply registry_inv_intro; [by destruct Hlater as (_ & _ & ? & _)|].
  rewrite Hhm, G1. intros k l Hin.
  destruct (registry_inv_entry _ _ _ _ Hinv Hin) as (Hhas & Hname & Hl).
  assert (h' !! l = h !! l) as Hsame.
  { eapply later_store_unchanged; [done | by apply is_model_dom |].
    by apply is_model_unwritable. }
  split; [by eapply dict_has_prefix|]. unfold heap_model, is_model in *.
  by rewrite Hsame.
Qed.

Lemma _addModel_inv this name' attrs primaryKey' :
  spec (λ h, registry_inv h this = true)
       (_addModel this name' attrs primaryKey')
       (λ _ h, registry_inv h this = true).
Proof.
  intros h h' r Hinv Hrun.
  pose proof (registry_inv_inv _ _ Hinv) as (Hwf & _ & _).
  assert (later_store this h h') as Hlater.
  { eapply (_addModel_later this h); [|done]. by apply later_store_refl. }
  pose proof (later_store_modeler _ _ _ Hlater) as Hhm.
  destruct (modeler_wf_inv _ _ Hwf) as (me & Hme & Hhme & Hm & Ha & Hne & Hin).
  revert Hrun. cbv [_addModel bind read Map_has Map_set alloc ret].
  rewrite Hhme.
  destruct (dict_has (heap_map h (_models me)) name') eqn:Hhas; cbn [negb];
    [by intros [= <- <-]|].
  set (x := fresh (dom h)).
  set (h1 := <[x := CModel (new_HydraModel name' attrs primaryKey')]> h).
  assert (x ≠ this ∧ x ≠ _models me ∧ x ≠ _associations me) as (Hxt & Hxm & Hxa).
  { repeat split; apply fresh_ne;
      [by eapply lookup_dom_Some | by apply is_map_dom | by apply is_map_dom]. }
  assert (heap_map h1 (_models me) = heap_map h (_models me)) as ->
    by (by apply heap_map_insert_ne).
  set (h2 := <[_models me := CMap (dict_set (heap_map h (_models me)) name' x)]> h1).
  assert (heap_modeler h2 this = me) as ->.
  { unfold h2, h1. rewrite !heap_modeler_insert_ne; try done.
    intros Heq. rewrite Heq in Hm. exact (is_map_not_modeler _ _ _ Hm Hme). }
  set (y := fresh (dom h2)). set (h3 := <[y := CMap []]> h2).
  assert (dom h2 = {[_models me]} ∪ ({[x]} ∪ dom h)) as Hdom2.
  { unfold h2, h1. by rewrite !dom_insert_L. }
  assert (y ∉ dom h2) as Hy by apply fresh_not_dom.
  assert (y ≠ _associations me) as Hya.
  { intros Heq. apply Hy. rewrite Hdom2, Heq.
    apply is_map_dom in Ha. set_solver. }
  assert (heap_map h3 (_associations me) = heap_map h (_associations me)) as ->.
  { unfold h3, h2, h1. by rewrite !heap_map_insert_ne. }
  intros [= <- <-]. rewrite Hhme in Hhm.
  assert (heap_map (<[_associations me :=
                       CMap (dict_set (heap_map h (_associations me)) name' y)]> h3)
            (_models me)
          = dict_set (heap_map h (_models me)) name' x) as Hmodels'.
  { rewrite (heap_map_insert_ne _ (_associations me) (_models me)) by done.
    unfold h3. rewrite (heap_map_insert_ne _ y (_models me)).
    - apply heap_map_insert_eq.
    - intros Heq. apply Hy. rewrite Hdom2, Heq. set_solver. }
  apply registry_inv_intro; [by destruct Hlater as (_ & _ & ? & _)|].
  rewrite Hhm, Hmodels', heap_map_insert_eq.
  assert (dict_get (heap_map h (_models me)) name' = None) as Habsent.
  { unfold dict_has in Hhas. by destruct (dict_get _ name'). }
  rewrite dict_set_absent by (by apply dict_get_None).
  intros k l [Hkl|[= -> ->]%list_elem_of_singleton]%elem_of_app.
  - rewrite <- Hhme in Hkl.
    destruct (registry_inv_entry _ _ _ _ Hinv Hkl) as (Hk & Hname & Hl).
    rewrite Hhme in Hk.
    assert (<[_associations me :=
                CMap (dict_set (heap_map h (_associations me)) name' y)]> h3 !! l
            = h !! l) as Hsame.
    { eapply later_store_unchanged; [done | by apply is_model_dom |].
      by apply is_model_unwritable. }
    split; [apply dict_has_set; by right|].
    unfold heap_model, is_model in *. by rewrite Hsame.
  - assert (<[_associations me :=
                CMap (dict_set (heap_map h (_associations me)) name' y)]> h3 !! x
            = Some (CModel (new_HydraModel name' attrs primaryKey'))) as Hx.
    { unfold h3, h2, h1.
      rewrite lookup_insert_ne, lookup_insert_ne, lookup_insert_ne,
        lookup_insert_eq; [done | done | | done].
      intros ->. apply Hy. rewrite Hdom2. set_solver. }
    split; [apply dict_has_set; by left|].
    unfold heap_model, is_model. by rewrite Hx.
Qed.

Lemma mutate_inv this mu h :
  registry_inv h this = true → registry_inv (mutate this mu h) this = true.
Proof.
  intros Hinv. pose proof (registry_inv_inv _ _ Hinv) as (Hwf & _ & _).
  destruct mu as [adds|src calls|name' noThrow|modelName]; cbn [mutate].
  - destruct (addModels this adds h) as [h' r] eqn:E. cbn [fst].
    eapply (spec_forM_ (λ h, registry_inv h this = true)); [|exact Hinv|exact E].
    intros [[n at'] pk] _. apply _addModel_inv.
  - destruct (associate this src calls h) as [h' r] eqn:E. cbn [fst].
    eapply grown_store_inv; [done|].
    eapply (associate_grown this h); [|done]. by apply grown_store_refl.
  - destruct (getModel this name' noThrow h) as [h' r] eqn:E. cbn [fst].
    eapply grown_store_inv; [done|].
    eapply (getModel_grown this h); [|done]. by apply grown_store_refl.
  - destruct (getAssociations this modelName h) as [h' r] eqn:E. cbn [fst].
    eapply grown_store_inv; [done|].
    eapply (ensureAssocMap_grown this h); [|done]. by apply grown_store_refl.
Qed.

Lemma mutations_inv this mus h :
  registry_inv h this = true → registry_inv (mutations this mus h) this = true.
Proof.
  unfold mutations. revert h. induction mus as [|mu mus IH]; intros h Hinv;
    [done|].
  cbn [foldl]. apply IH. by apply mutate_inv.
Qed.

(** A new registry is in shape, whatever the store it is made in. *)
Lemma new_HydraModeler_inv opts h h' this :
  new_HydraModeler opts h = (h', Ok this) → registry_inv h' this = true.
Proof.
  cbv [new_HydraModeler bind alloc]. intros [= <- <-].
  set (m := fresh (dom h)). set (h1 := <[m := CMap []]> h).
  set (a := fresh (dom h1)). set (h2 := <[a := CMap []]> h1).
  set (t := fresh (dom h2)).
  assert (a ∉ dom h1) as Ha by apply fresh_not_dom.
  assert (t ∉ dom h2) as Ht by apply fresh_not_dom.
  assert (dom h1 = {[m]} ∪ dom h) as Hd1 by apply dom_insert_L.
  assert (dom h2 = {[a]} ∪ dom h1) as Hd2 by apply dom_insert_L.
  assert (a ≠ m) by set_solver. assert (t ≠ m) by set_solver.
  assert (t ≠ a) by set_solver.
  set (me := {| _models := m; _associations := a; _options := _ |}).
  assert (heap_map (<[t := CModeler me]> h2) m = []) as Hm.
  { unfold heap_map, h2, h1.
    by rewrite lookup_insert_ne, lookup_insert_ne, lookup_insert_eq. }
  assert (heap_map (<[t := CModeler me]> h2) a = []) as Hao.
  { unfold heap_map, h2. by rewrite lookup_insert_ne, lookup_insert_eq. }
  assert (heap_modeler (<[t := CModeler me]> h2) t = me) as Hme.
  { unfold heap_modeler. by rewrite lookup_insert_eq. }
  apply registry_inv_intro.
  - apply (modeler_wf_intro _ _ me).
    + by rewrite lookup_insert_eq.
    + unfold is_map, h2, h1.
      by rewrite lookup_insert_ne, lookup_insert_ne, lookup_insert_eq.
    + unfold is_map, h2. by rewrite lookup_insert_ne, lookup_insert_eq.
    + by cbn.
    + cbn [_associations me]. rewrite Hao. by intros ? ?%elem_of_nil.
  - rewrite Hme. cbn [_models me]. rewrite Hm. by intros ? ? ?%elem_of_nil.
Qed.

(** * Cloning a registry *)

(** ** Writes that touch [Map]s only *)

Lemma maps_only_alloc (h : Heap) c : maps_only h (<[fresh (dom h) := c]> h).
Proof.
  split.
  - intros l c' Hl _. rewrite lookup_insert_ne; [done|].
    apply fresh_ne. by eapply lookup_dom_Some.
  - intros l Hl. by apply is_map_alloc.
Qed.

Lemma maps_only_update (h : Heap) x d :
  is_map h x = true → maps_only h (<[x := CMap d]> h).
Proof.
  intros Hx. split.
  - intros l c Hl Hnm. rewrite lookup_insert_ne; [done|]. intros ->. congruence.
  - intros l Hl. by apply is_map_insert_map.
Qed.

Lemma is_model_stable (h h' : Heap) l :
  maps_only h h' → is_model h l = true → is_model h' l = true.
Proof.
  intros [Hcells _] Hl. pose proof (is_model_not_map _ _ Hl) as Hnm.
  unfold is_model in *. destruct (h !! l) as [c|] eqn:E; [|done].
  by rewrite (Hcells l c E Hnm).
Qed.

Lemma fresh_association_stable h0 (h h' : Heap) x :
  maps_only h h' → fresh_association h0 h x → fresh_association h0 h' x.
Proof.
  intros [Hcells _] (Hx & a & Ha & Hrefs). split; [done|].
  exists a. split; [|done]. apply Hcells; [done|].
  unfold is_map. by rewrite Ha.
Qed.

Lemma fresh_inner_stable h0 (h h' : Heap) l :
  maps_only h h' → heap_map h' l = heap_map h l →
  fresh_inner h0 h l → fresh_inner h0 h' l.
Proof.
  intros Hmo Hsame (Hl & Hmap & Hvals). split; [done|]. split.
  - by apply Hmo.
  - rewrite Hsame. eapply Forall_impl; [done|].
    intros x. by apply fresh_association_stable.
Qed.

Lemma Forall_dict_values_set {K V} `{EqDecision K} (P : V → Prop)
    (d : dict K V) k v :
  Forall P (dict_values d) → P v → Forall P (dict_values (dict_set d k v)).
Proof.
  rewrite !Forall_forall. intros Hd Hv x [->|Hx]%dict_values_set; auto.
Qed.

Lemma extends_dom (h0 h : Heap) l : extends h0 h → l ∈ dom h0 → l ∈ dom h.
Proof.
  intros Hext Hl. apply elem_of_dom. rewrite (Hext l Hl). by apply elem_of_dom.
Qed.

(** ** Steps that keep [cloning] *)

Lemma elem_of_dict_set {K V} `{EqDecision K} (d : dict K V) k v k' v' :
  (k', v') ∈ dict_set d k v → (k' = k ∧ v' = v) ∨ (k', v') ∈ d.
Proof.
  induction d as [|[k0 v0] d IH]; cbn [dict_set].
  - intros [= -> ->]%list_elem_of_singleton. by left.
  - destruct (decide (k0 = k)) as [->|Hne].
    + intros [[= -> ->]|Hin]%elem_of_cons; [by left|]. right. by right.
    + intros [[= -> ->]|Hin]%elem_of_cons; [right; by left|].
      destruct (IH Hin) as [?|?]; [by left|]. right. by right.
Qed.

Lemma extends_model (h0 h : Heap) l :
  extends h0 h → l ∈ dom h0 → heap_model h l = heap_model h0 l.
Proof. intros Hext Hl. unfold heap_model. by rewrite (Hext l Hl). Qed.

Lemma extends_map (h0 h : Heap) l :
  extends h0 h → l ∈ dom h0 → heap_map h l = heap_map h0 l.
Proof. intros Hext Hl. unfold heap_map. by rewrite (Hext l Hl). Qed.

Lemma extends_modeler (h0 h : Heap) l :
  extends h0 h → l ∈ dom h0 → heap_modeler h l = heap_modeler h0 l.
Proof. intros Hext Hl. unfold heap_modeler. by rewrite (Hext l Hl). Qed.

Section cloning_steps.
Variables (h0 : Heap) (c m a : loc).

Lemma cloning_step h h' :
  cloning h0 c m a h →
  maps_only h h' →
  (∀ l, l ∈ dom h0 → h' !! l = h !! l) →
  Forall (λ l, (l ∉ dom h0) ∧ is_model h' l = true)
         (dict_values (heap_map h' m)) →
  Forall (λ l, l ≠ m ∧ l ≠ a ∧ fresh_inner h0 h' l)
         (dict_values (heap_map h' a)) →
  cloning h0 c m a h'.
Proof.
  intros (Hext & [opts Hc] & Hc0 & Hm0 & Ha0 & Hma & Hm & Ha & _ & _)
    Hmo Hold Hmodels Hinner.
  split; [|split; [|repeat split; try done]].
  - intros l Hl. rewrite Hold by done. by apply Hext.
  - exists opts. apply Hmo; [done|]. unfold is_map. by rewrite Hc.
  - by apply Hmo.
  - by apply Hmo.
Qed.

Lemma cloning_fresh_ne h l :
  cloning h0 c m a h → l ∈ dom h0 → fresh (dom h) ≠ l.
Proof.
  intros (Hext & _) Hl. apply fresh_ne. by eapply extends_dom.
Qed.

Lemma cloning_alloc h cell :
  cloning h0 c m a h → cloning h0 c m a (<[fresh (dom h) := cell]> h).
Proof.
  intros Hcl. pose proof Hcl as (Hext & _ & _ & _ & _ & _ & Hm & Ha & Hmodels & Hinner).
  pose proof (maps_only_alloc h cell) as Hmo.
  apply (cloning_step h); [done | done | | |].
  - intros l Hl. apply lookup_insert_ne. by eapply cloning_fresh_ne.
  - rewrite heap_map_insert_ne by (by apply fresh_ne, is_map_dom).
    eapply Forall_impl; [done|]. intros l [? ?]. split; [done|].
    by eapply is_model_stable.
  - rewrite heap_map_insert_ne by (by apply fresh_ne, is_map_dom).
    eapply Forall_impl; [done|]. intros l (? & ? & Hl).
    split; [done|]. split; [done|]. eapply fresh_inner_stable; [done| |done].
    apply heap_map_insert_ne, fresh_ne, is_map_dom. by destruct Hl as (_ & ? & _).
Qed.

(** [_models.set(name, cloned)] *)
Lemma cloning_set_model h k x :
  cloning h0 c m a h →
  x ∉ dom h0 → is_model h x = true →
  cloning h0 c m a (<[m := CMap (dict_set (heap_map h m) k x)]> h).
Proof.
  intros Hcl Hx Hxm.
  pose proof Hcl as (Hext & _ & _ & Hm0 & _ & Hma & Hm & Ha & Hmodels & Hinner).
  pose proof (maps_only_update h m (dict_set (heap_map h m) k x) Hm) as Hmo.
  apply (cloning_step h); [done | done | | |].
  - intros l Hl. apply lookup_insert_ne. by intros ->.
  - rewrite heap_map_insert_eq. apply Forall_dict_values_set.
    + eapply Forall_impl; [done|]. intros l [? ?]. split; [done|].
      by eapply is_model_stable.
    + split; [done|]. by eapply is_model_stable.
  - rewrite heap_map_insert_ne by done.
    eapply Forall_impl; [done|]. intros l (? & ? & Hl).
    split; [done|]. split; [done|]. eapply fresh_inner_stable; [done| |done].
    by apply heap_map_insert_ne.
Qed.

(** [_associations.set(name, inner)] *)
Lemma cloning_set_inner h k z :
  cloning h0 c m a h →
  z ≠ m → z ≠ a → fresh_inner h0 h z →
  cloning h0 c m a (<[a := CMap (dict_set (heap_map h a) k z)]> h).
Proof.
  intros Hcl Hzm Hza Hz.
  pose proof Hcl as (Hext & _ & _ & _ & Ha0 & Hma & Hm & Ha & Hmodels & Hinner).
  pose proof (maps_only_update h a (dict_set (heap_map h a) k z) Ha) as Hmo.
  apply (cloning_step h); [done | done | | |].
  - intros l Hl. apply lookup_insert_ne. by intros ->.
  - rewrite heap_map_insert_ne by done.
    eapply Forall_impl; [done|]. intros l [? ?]. split; [done|].
    by eapply is_model_stable.
  - rewrite heap_map_insert_eq. apply Forall_dict_values_set.
    + eapply Forall_impl; [done|]. intros l (? & ? & Hl).
      split; [done|]. split; [done|]. eapply fresh_inner_stable; [done| |done].
      by apply heap_map_insert_ne.
    + split; [done|]. split; [done|]. eapply fresh_inner_stable; [done| |done].
      by apply heap_map_insert_ne.
Qed.

(** [clonedMap.set(as, entry)], for a [Map] made after [h0] *)
Lemma cloning_set_entry h z k x :
  cloning h0 c m a h →
  z ≠ m → z ≠ a → fresh_inner h0 h z → fresh_association h0 h x →
  cloning h0 c m a (<[z := CMap (dict_set (heap_map h z) k x)]> h) ∧
  fresh_inner h0 (<[z := CMap (dict_set (heap_map h z) k x)]> h) z.
Proof.
  intros Hcl Hzm Hza Hz Hx.
  pose proof Hcl as (Hext & _ & _ & _ & Ha0 & Hma & Hm & Ha & Hmodels & Hinner).
  pose proof Hz as (Hz0 & Hzmap & Hzvals).
  pose proof (maps_only_update h z (dict_set (heap_map h z) k x) Hzmap) as Hmo.
  assert (fresh_inner h0 (<[z := CMap (dict_set (heap_map h z) k x)]> h) z)
    as Hz'.
  { split; [done|]. split; [by apply Hmo|].
    rewrite heap_map_insert_eq. apply Forall_dict_values_set.
    - eapply Forall_impl; [done|]. intros y. by apply fresh_association_stable.
    - by eapply fresh_association_stable. }
  split; [|done].
  apply (cloning_step h); [done | done | | |].
  - intros l Hl. apply lookup_insert_ne. by intros ->.
  - rewrite heap_map_insert_ne by done.
    eapply Forall_impl; [done|]. intros l [? ?]. split; [done|].
    by eapply is_model_stable.
  - rewrite heap_map_insert_ne by done.
    eapply Forall_impl; [done|]. intros l (? & ? & Hl).
    split; [done|]. split; [done|]. destruct (decide (z = l)) as [<-|Hne]; [done|].
    eapply fresh_inner_stable; [done| |done]. by apply heap_map_insert_ne.
Qed.
End cloning_steps.

(** ** The loops of [cloneFromModeler] *)

Section cloning_loops.
Variables (h0 : Heap) (c m a : loc).

Lemma cloning_dom h l : cloning h0 c m a h → l ∈ dom h0 → l ∈ dom h.
Proof. intros (Hext & _). by apply extends_dom. Qed.

Lemma cloning_fresh h : cloning h0 c m a h → fresh (dom h) ∉ dom h0.
Proof.
  intros Hcl Hin. apply (fresh_not_dom h). by eapply cloning_dom.
Qed.

Lemma fresh_inner_empty h z :
  z ∉ dom h0 → h !! z = Some (CMap []) → fresh_inner h0 h z.
Proof.
  intros Hz Hcell. split; [done|]. unfold is_map, heap_map. rewrite Hcell.
  split; [done|]. constructor.
Qed.

Lemma cloneModelEntry_cloning entry :
  spec (cloning h0 c m a) (cloneModelEntry m a entry) (λ _, cloning h0 c m a).
Proof.
  destruct entry as [name' model]. intros h h' r Hcl.
  cbv [cloneModelEntry bind read alloc Map_set ret]. intros [= <- <-].
  set (x := fresh (dom h)).
  set (h1 := <[x := CModel _]> h).
  assert (cloning h0 c m a h1) as Hcl1 by (by apply cloning_alloc).
  set (h2 := <[m := CMap (dict_set (heap_map h1 m) name' x)]> h1).
  assert (cloning h0 c m a h2) as Hcl2.
  { apply cloning_set_model; [done | by apply cloning_fresh |].
    unfold is_model, h1. by rewrite lookup_insert_eq. }
  set (y := fresh (dom h2)).
  set (h3 := <[y := CMap []]> h2).
  assert (cloning h0 c m a h3) as Hcl3 by (by apply cloning_alloc).
  pose proof Hcl2 as (_ & _ & _ & _ & _ & _ & Hm2 & Ha2 & _).
  apply cloning_set_inner; [done | | |].
  - apply fresh_ne. by apply is_map_dom.
  - apply fresh_ne. by apply is_map_dom.
  - apply (fresh_inner_empty h3); [by apply cloning_fresh|].
    unfold h3. by rewrite lookup_insert_eq.
Qed.

Lemma cloning_modeler h :
  cloning h0 c m a h →
  _models (heap_modeler h c) = m ∧ _associations (heap_modeler h c) = a.
Proof.
  intros (_ & [opts Hc] & _). unfold heap_modeler. by rewrite Hc.
Qed.

Lemma cloning_inner_fresh h k l :
  cloning h0 c m a h → dict_get (heap_map h a) k = Some l →
  (l ∉ dom h0) ∧ l ≠ m ∧ l ≠ a.
Proof.
  intros (_ & _ & _ & _ & _ & _ & _ & _ & _ & Hinner) Hl%dict_get_values.
  rewrite Forall_forall in Hinner.
  destruct (Hinner l Hl) as (? & ? & ? & _). done.
Qed.

(** [wrap] reads only, and the [Map] it hands out is one of the clone. *)
Lemma wrap_cloning h modelName :
  cloning h0 c m a h →
  ∃ r, wrap c modelName h = (h, r) ∧
       ∀ w, r = Ok w → associations w ∉ dom h0.
Proof.
  intros Hcl. destruct (cloning_modeler h Hcl) as [Hm Ha].
  cbv [wrap bind read Map_get ret throw]. rewrite Hm, Ha.
  destruct (dict_get (heap_map h m) modelName) as [ml|];
    [|eexists; split; [done|]; by intros].
  destruct (dict_get (heap_map h a) modelName) as [al|] eqn:E;
    [|eexists; split; [done|]; by intros].
  eexists; split; [done|]. intros w [= <-]. cbn [associations].
  by destruct (cloning_inner_fresh h _ _ Hcl E).
Qed.

Lemma cloneAssociation_cloning h srcName assoc h' r :
  cloning h0 c m a h →
  cloneAssociation c srcName assoc h = (h', r) →
  match r with
  | Throw _ => h' = h
  | Ok x =>
      x = fresh (dom h) ∧
      ∃ e, h' = <[x := CAssociation e]> h ∧
           Forall (λ l, l ∉ dom h0) (association_refs e)
  end.
Proof.
  intros Hcl. unfold cloneAssociation.
  destruct (wrap_cloning h srcName Hcl) as ([src|e1] & Hrun1 & Hsrc);
    [rewrite (bind_Ok _ _ _ _ _ Hrun1)
    |rewrite (bind_Throw _ _ _ _ _ Hrun1); by intros [= <- <-]].
  destruct (wrap_cloning h (name (target assoc)) Hcl) as ([tg|e2] & Hrun2 & Htg);
    [rewrite (bind_Ok _ _ _ _ _ Hrun2)
    |rewrite (bind_Throw _ _ _ _ _ Hrun2); by intros [= <- <-]].
  destruct (through assoc) as [t|].
  - destruct (wrap_cloning h (name (through_model t)) Hcl)
      as ([tm|e3] & Hrun3 & Htm).
    + rewrite (bind_Ok _ _ h h (Some {| through_model := tm;
                                        through_alias := through_alias t;
                                        through_foreignKey := through_foreignKey t;
                                        through_otherKey := through_otherKey t |}))
        by (by rewrite (bind_Ok _ _ _ _ _ Hrun3)).
      intros [= <- <-]. split; [done|]. eexists. split; [done|].
      unfold association_refs. cbn [source target through through_model].
      repeat constructor; auto.
    + rewrite (bind_Throw _ _ h h e3)
        by (by rewrite (bind_Throw _ _ _ _ _ Hrun3)).
      by intros [= <- <-].
  - rewrite (bind_Ok _ _ h h None) by done.
    intros [= <- <-]. split; [done|]. eexists. split; [done|].
    unfold association_refs. cbn [source target through].
    repeat constructor; auto.
Qed.

Lemma cloning_model h l :
  cloning h0 c m a h → l ∈ dict_values (heap_map h m) → is_model h l = true.
Proof.
  intros (_ & _ & _ & _ & _ & _ & _ & _ & Hmodels & _) Hl.
  rewrite Forall_forall in Hmodels. by destruct (Hmodels l Hl).
Qed.

Lemma named_keep h h' :
  cloning h0 c m a h → named h m a → maps_only h h' →
  heap_map h' m = heap_map h m →
  (∀ k, dict_has (heap_map h a) k = true → dict_has (heap_map h' a) k = true) →
  named h' m a.
Proof.
  intros Hcl Hn [Hcells _] Hm Ha k l Hin. rewrite Hm in Hin.
  destruct (Hn k l Hin) as [Hhas Hname]. split; [by apply Ha|].
  rewrite <- Hname.
  assert (is_model h l = true) as Hl.
  { apply cloning_model; [done|]. by apply (list_elem_of_fmap_2 snd) in Hin. }
  pose proof (is_model_not_map _ _ Hl) as Hnm.
  unfold is_model in Hl. unfold heap_model.
  destruct (h !! l) as [cell|] eqn:E; [|done].
  by rewrite (Hcells l cell E Hnm).
Qed.

(** A property of the store kept by writes that leave [m] as it is and
    [a] with the names it had. *)
Section kept_property.
Variable N : Heap → Prop.
Hypothesis N_keep :
  ∀ h h', cloning h0 c m a h → N h → maps_only h h' →
          heap_map h' m = heap_map h m →
          (∀ k, dict_has (heap_map h a) k = true →
                dict_has (heap_map h' a) k = true) →
          N h'.

Lemma kept_alloc h cell :
  cloning h0 c m a h → N h → N (<[fresh (dom h) := cell]> h).
Proof.
  intros Hcl HN. pose proof Hcl as (_ & _ & _ & _ & _ & _ & Hm & Ha & _).
  apply (N_keep h); [done | done | apply maps_only_alloc | |].
  - by apply heap_map_insert_ne, fresh_ne, is_map_dom.
  - rewrite heap_map_insert_ne; [done|]. by apply fresh_ne, is_map_dom.
Qed.

Lemma kept_set_entry h z d :
  cloning h0 c m a h → N h → z ≠ m → z ≠ a → is_map h z = true →
  N (<[z := CMap d]> h).
Proof.
  intros Hcl HN Hzm Hza Hz.
  apply (N_keep h); [done | done | by apply maps_only_update | |].
  - by apply heap_map_insert_ne.
  - by rewrite heap_map_insert_ne.
Qed.

Lemma kept_set_inner h k z :
  cloning h0 c m a h → N h →
  N (<[a := CMap (dict_set (heap_map h a) k z)]> h).
Proof.
  intros Hcl HN. pose proof Hcl as (_ & _ & _ & _ & _ & Hma & Hm & Ha & _).
  apply (N_keep h); [done | done | by apply maps_only_update | |].
  - by apply heap_map_insert_ne.
  - rewrite heap_map_insert_eq. intros k' Hk'. apply dict_has_set. by right.
Qed.

Section cloned_map.
Variable z : loc.
Hypotheses (Hzm : z ≠ m) (Hza : z ≠ a).

Lemma cloneAssociationEntry_cloning srcName entry :
  spec (λ h, cloning h0 c m a h ∧ fresh_inner h0 h z ∧ N h)
       (cloneAssociationEntry c srcName z entry)
       (λ _ h, cloning h0 c m a h ∧ fresh_inner h0 h z ∧ N h).
Proof.
  destruct entry as [as' assocRef]. intros h h' r (Hcl & Hz & HN).
  unfold cloneAssociationEntry.
  rewrite (bind_Ok _ _ h h (heap_association h assocRef)) by done.
  destruct (heap_association h assocRef) as [assoc|]; [|by intros [= <- <-]].
  destruct (cloneAssociation c srcName assoc h) as [h1 [x|e]] eqn:Hrun.
  - rewrite (bind_Ok _ _ _ _ _ Hrun).
    apply cloneAssociation_cloning in Hrun as (-> & e & -> & Hrefs); [|done].
    intros [= <- <-].
    pose proof (maps_only_alloc h (CAssociation e)) as Hmo.
    pose proof (cloning_alloc h0 c m a h (CAssociation e) Hcl) as Hcl1.
    assert (heap_map (<[fresh (dom h) := CAssociation e]> h) z = heap_map h z)
      as Hzsame.
    { apply heap_map_insert_ne, fresh_ne, is_map_dom. by destruct Hz as (_ & ? & _). }
    assert (fresh_inner h0 (<[fresh (dom h) := CAssociation e]> h) z) as Hz1
      by (by eapply fresh_inner_stable).
    assert (cloning h0 c m a
              (<[z := CMap (dict_set (heap_map (<[fresh (dom h) := CAssociation e]> h) z)
                              as' (fresh (dom h)))]>
                 (<[fresh (dom h) := CAssociation e]> h)) ∧
            fresh_inner h0
              (<[z := CMap (dict_set (heap_map (<[fresh (dom h) := CAssociation e]> h) z)
                              as' (fresh (dom h)))]>
                 (<[fresh (dom h) := CAssociation e]> h)) z) as [? ?].
    { apply cloning_set_entry; [done | done | done | done |].
      split; [by apply cloning_fresh|]. exists e. by rewrite lookup_insert_eq. }
    split; [done|]. split; [done|].
    apply kept_set_entry; [done | by apply kept_alloc | done | done |].
    by destruct Hz1 as (_ & ? & _).
  - rewrite (bind_Throw _ _ _ _ _ Hrun).
    apply cloneAssociation_cloning in Hrun as ->; [|done].
    by intros [= <- <-].
Qed.
End cloned_map.

Lemma cloneAssociationMap_cloning entry :
  spec (λ h, cloning h0 c m a h ∧ N h) (cloneAssociationMap c a entry)
       (λ _ h, cloning h0 c m a h ∧ N h).
Proof.
  destruct entry as [srcName assocMap]. intros h h' r [Hcl HN].
  unfold cloneAssociationMap.
  set (z := fresh (dom h)). set (h1 := <[z := CMap []]> h).
  rewrite (bind_Ok _ _ h h1 z) by done.
  rewrite (bind_Ok _ _ h1 h1 (heap_map h1 assocMap)) by done.
  pose proof Hcl as (_ & _ & _ & _ & _ & _ & Hm & Ha & _).
  assert (z ≠ m) as Hzm by (by apply fresh_ne, is_map_dom).
  assert (z ≠ a) as Hza by (by apply fresh_ne, is_map_dom).
  assert (cloning h0 c m a h1 ∧ fresh_inner h0 h1 z ∧ N h1) as Hinv.
  { split; [by apply cloning_alloc|]. split; [|by apply kept_alloc].
    apply fresh_inner_empty; [by apply cloning_fresh|].
    unfold h1. by rewrite lookup_insert_eq. }
  destruct (forM_ (cloneAssociationEntry c srcName z) (heap_map h1 assocMap) h1)
    as [h2 res] eqn:Hloop.
  assert (cloning h0 c m a h2 ∧ fresh_inner h0 h2 z ∧ N h2) as (Hcl2 & Hz2 & HN2).
  { eapply (spec_forM_ (λ h, cloning h0 c m a h ∧ fresh_inner h0 h z ∧ N h));
      [|exact Hinv|exact Hloop].
    intros entry _. by apply cloneAssociationEntry_cloning. }
  destruct res as [[]|e].
  - rewrite (bind_Ok _ _ _ _ _ Hloop). intros [= <- <-].
    split; [by apply cloning_set_inner | by apply kept_set_inner].
  - rewrite (bind_Throw _ _ _ _ _ Hloop). by intros [= <- <-].
Qed.
End kept_property.
(** A model copied from an entry under its own name is under its own
    name. *)
Lemma cloneModelEntry_named entry :
  entry.2 ∈ dom h0 → _name (heap_model h0 entry.2) = entry.1 →
  spec (λ h, cloning h0 c m a h ∧ named h m a) (cloneModelEntry m a entry)
       (λ _ h, cloning h0 c m a h ∧ named h m a).
Proof.
  destruct entry as [name' model]. cbn [fst snd].
  intros Hdom Hname h h' r [Hcl Hn] Hrun.
  split; [by eapply cloneModelEntry_cloning|]. revert Hrun.
  cbv [cloneModelEntry bind read alloc Map_set ret]. intros [= <- <-].
  set (x := fresh (dom h)).
  set (h1 := <[x := CModel _]> h).
  assert (cloning h0 c m a h1) as Hcl1 by (by apply cloning_alloc).
  assert (named h1 m a) as Hn1
    by (by apply (kept_alloc (λ h, named h m a) named_keep)).
  set (h2 := <[m := CMap (dict_set (heap_map h1 m) name' x)]> h1).
  assert (cloning h0 c m a h2) as Hcl2.
  { apply cloning_set_model; [done | by apply cloning_fresh |].
    unfold is_model, h1. by rewrite lookup_insert_eq. }
  set (y := fresh (dom h2)).
  set (h3 := <[y := CMap []]> h2).
  pose proof Hcl as (Hext & _ & _ & _ & _ & Hma & Hm & Ha & _).
  pose proof Hcl2 as (_ & _ & _ & _ & _ & _ & Hm2 & Ha2 & _).
  assert (y ≠ m) as Hym by (by apply fresh_ne, is_map_dom).
  assert (y ≠ a) as Hya by (by apply fresh_ne, is_map_dom).
  assert (x ≠ m) as Hxm by (by apply fresh_ne, is_map_dom).
  assert (x ≠ a) as Hxa by (by apply fresh_ne, is_map_dom).
  assert (heap_map h3 a = heap_map h1 a) as Ha3.
  { unfold h3, h2. by rewrite !heap_map_insert_ne. }
  assert (∀ l, is_model h1 l = true →
               heap_model (<[a := CMap (dict_set (heap_map h3 a) name' y)]> h3) l
               = heap_model h1 l) as Hsame.
  { intros l Hl. pose proof (is_model_dom _ _ Hl) as Hldom.
    pose proof Hcl1 as (_ & _ & _ & _ & _ & _ & Hm1 & Ha1 & _).
    assert (is_model h2 l = true) as Hl2.
    { apply (is_model_stable h1); [|done]. by apply maps_only_update. }
    unfold h3, h2. rewrite !heap_model_insert_ne; [done | | |].
    - intros ->. apply is_model_not_map in Hl. congruence.
    - intros Heq. by apply (fresh_ne h2 l (is_model_dom _ _ Hl2)).
    - intros ->. apply is_model_not_map in Hl. congruence. }
  intros k l Hin.
  rewrite heap_map_insert_ne in Hin by done. unfold h3 in Hin.
  rewrite heap_map_insert_ne in Hin by done. unfold h2 in Hin.
  rewrite heap_map_insert_eq in Hin.
  apply elem_of_dict_set in Hin as [[-> ->]|Hin].
  - split; [rewrite heap_map_insert_eq; apply dict_has_set; by left|].
    rewrite Hsame by (unfold is_model, h1; by rewrite lookup_insert_eq).
    unfold heap_model at 1, h1. rewrite lookup_insert_eq.
    cbn [new_HydraModel _name]. rewrite <- Hname.
    f_equal. by apply extends_model.
  - destruct (Hn1 k l Hin) as [Hhas Hkl].
    split; [rewrite heap_map_insert_eq, Ha3; apply dict_has_set; by right|].
    rewrite Hsame; [done|]. apply (cloning_model h1); [done|].
    by apply (list_elem_of_fmap_2 snd) in Hin.
Qed.

End cloning_loops.

(** ** The clone *)

(** [cloneFromModeler] starts from two fresh empty [Map]s, then runs its
    two loops. *)
Lemma cloneFromModeler_start h0 c o h me h' r :
  extends h0 h → c ∉ dom h0 → h !! c = Some (CModeler me) →
  cloneFromModeler c o h = (h', r) →
  ∃ m a h3,
    cloning h0 c m a h3 ∧ heap_map h3 m = [] ∧
    (let* sourceModels := read (λ h, heap_map h (_models (heap_modeler h o))) in
     let* _ := forM_ (cloneModelEntry m a) sourceModels in
     let* sourceAssociations :=
       read (λ h, heap_map h (_associations (heap_modeler h o))) in
     forM_ (cloneAssociationMap c a) sourceAssociations) h3 = (h', r).
Proof.
  intros Hext Hc0 Hc. unfold cloneFromModeler.
  set (m := fresh (dom h)). set (h1 := <[m := CMap []]> h).
  rewrite (bind_Ok _ _ h h1 m) by done.
  set (a := fresh (dom h1)). set (h2 := <[a := CMap []]> h1).
  rewrite (bind_Ok _ _ h1 h2 a) by done.
  rewrite (bind_Ok _ _ h2 h2 (heap_modeler h2 c)) by done.
  set (h3 := <[c := CModeler {| _models := m; _associations := a;
                                _options := _options (heap_modeler h2 c) |}]> h2).
  rewrite (bind_Ok _ _ h2 h3 ()) by done.
  assert (c ∈ dom h) as Hcdom by (by eapply lookup_dom_Some).
  assert (m ≠ c) as Hmc by (by apply fresh_ne).
  assert (m ∉ dom h) as Hmdom by apply fresh_not_dom.
  assert (a ∉ dom h1) as Hadom by apply fresh_not_dom.
  assert (dom h1 = {[m]} ∪ dom h) as Hdom1 by apply dom_insert_L.
  assert (a ≠ m ∧ a ≠ c ∧ a ∉ dom h) as (Ham & Hac & Hadom').
  { rewrite Hdom1 in Hadom. set_solver. }
  assert (∀ l, l ∈ dom h0 → l ∈ dom h) as Hsub
    by (intros; by eapply extends_dom).
  assert (heap_map h3 m = []) as Hempty.
  { unfold heap_map, h3, h2, h1.
    by rewrite lookup_insert_ne, lookup_insert_ne, lookup_insert_eq. }
  intros Hrun. exists m, a, h3. split; [|by split].
  split; [|split; [|repeat split]].
  - intros l Hl. unfold h3, h2, h1.
    rewrite !lookup_insert_ne; [by apply Hext | | |]; intros ->; auto.
  - eexists. unfold h3. by rewrite lookup_insert_eq.
  - done.
  - intros Hin. apply Hmdom. by apply Hsub.
  - intros Hin. apply Hadom'. by apply Hsub.
  - done.
  - unfold is_map, h3, h2, h1.
    by rewrite lookup_insert_ne, lookup_insert_ne, lookup_insert_eq.
  - unfold is_map, h3, h2. by rewrite lookup_insert_ne, lookup_insert_eq.
  - rewrite Hempty. constructor.
  - unfold heap_map, h3, h2. rewrite lookup_insert_ne, lookup_insert_eq by done.
    constructor.
Qed.

Lemma cloneFromModeler_cloning h0 c o h me h' r :
  extends h0 h → c ∉ dom h0 → h !! c = Some (CModeler me) →
  cloneFromModeler c o h = (h', r) →
  ∃ m a, cloning h0 c m a h'.
Proof.
  intros Hext Hc0 Hc Hrun.
  destruct (cloneFromModeler_start _ _ _ _ _ _ _ Hext Hc0 Hc Hrun)
    as (m & a & h3 & Hcl & _ & Hloops).
  exists m, a. revert Hloops.
  match goal with |- ?k h3 = _ → _ =>
    assert (spec (cloning h0 c m a) k (λ _, cloning h0 c m a)) as Hspec
  end.
  { apply spec_bind_keep; [apply spec_read_keep | | done]. intros sourceModels.
    apply spec_bind_keep; [|intros u|done].
    - apply spec_forM_. intros; apply cloneModelEntry_cloning.
    - apply spec_bind_keep; [apply spec_read_keep | | done]. intros sa.
      eapply spec_weaken;
        [apply (spec_forM_ (λ h, cloning h0 c m a h ∧ True))
        | by intros | by intros ? ? [? _]].
      intros entry _. by apply (cloneAssociationMap_cloning h0 c m a (λ _, True)). }
  intros Hloops. by eapply Hspec.
Qed.

(** The copy of a registry in shape has its models under their names. *)
Lemma cloneFromModeler_named h0 c o h me h' r :
  registry_inv h0 o = true →
  extends h0 h → c ∉ dom h0 → h !! c = Some (CModeler me) →
  cloneFromModeler c o h = (h', r) →
  ∃ m a, cloning h0 c m a h' ∧ named h' m a.
Proof.
  intros Hinv Hext Hc0 Hc Hrun.
  destruct (cloneFromModeler_start _ _ _ _ _ _ _ Hext Hc0 Hc Hrun)
    as (m & a & h3 & Hcl & Hempty & Hloops).
  exists m, a. revert Hloops.
  assert (named h3 m a) as Hn.
  { intros k l Hin. rewrite Hempty in Hin. by apply elem_of_nil in Hin. }
  destruct (registry_inv_inv _ _ Hinv) as (Hwf & _ & _).
  destruct (modeler_wf_inv _ _ Hwf) as (mo & Ho & Hmo & Hmm & _).
  pose proof Hcl as (Hext3 & _).
  assert (heap_map h3 (_models (heap_modeler h3 o))
          = heap_map h0 (_models (heap_modeler h0 o))) as Hsource.
  { rewrite (extends_modeler h0 h3) by (done || by eapply lookup_dom_Some).
    apply extends_map; [done|]. rewrite Hmo. by apply is_map_dom. }
  rewrite (bind_Ok _ _ h3 h3 (heap_map h3 (_models (heap_modeler h3 o))))
    by done.
  rewrite Hsource.
  destruct (forM_ (cloneModelEntry m a)
              (heap_map h0 (_models (heap_modeler h0 o))) h3)
    as [h4 res] eqn:Hloop1.
  assert (cloning h0 c m a h4 ∧ named h4 m a) as [Hcl4 Hn4].
  { eapply (spec_forM_ (λ h, cloning h0 c m a h ∧ named h m a));
      [|split; [exact Hcl | exact Hn]|exact Hloop1].
    intros [k l] Hin.
    destruct (registry_inv_entry _ _ _ _ Hinv Hin) as (_ & Hname & Hmodel).
    apply cloneModelEntry_named; [by apply is_model_dom | done]. }
  destruct res as [[]|e].
  - rewrite (bind_Ok _ _ _ _ _ Hloop1).
    rewrite (bind_Ok _ _ h4 h4
               (heap_map h4 (_associations (heap_modeler h4 o)))) by done.
    intros Hloop2.
    eapply (spec_forM_ (λ h, cloning h0 c m a h ∧ named h m a));
      [|split; [exact Hcl4 | exact Hn4]|exact Hloop2].
    intros entry _.
    apply (cloneAssociationMap_cloning h0 c m a (λ h, named h m a)).
    apply named_keep.
  - rewrite (bind_Throw _ _ _ _ _ Hloop1). by intros [= <- <-].
Qed.

(** [new HydraModeler(from)] makes its object after [h0], then copies. *)
Lemma new_HydraModeler_from_start h0 o h1 c :
  new_HydraModeler_from o h0 = (h1, Ok c) →
  ∃ g me, extends h0 g ∧ (c ∉ dom h0) ∧ g !! c = Some (CModeler me) ∧
          cloneFromModeler c o g = (h1, Ok ()).
Proof.
  unfold new_HydraModeler_from.
  set (m0 := fresh (dom h0)). set (g1 := <[m0 := CMap []]> h0).
  rewrite (bind_Ok _ _ h0 g1 m0) by done.
  set (a0 := fresh (dom g1)). set (g2 := <[a0 := CMap []]> g1).
  rewrite (bind_Ok _ _ g1 g2 a0) by done.
  rewrite (bind_Ok _ _ g2 g2 (_options (heap_modeler g2 o))) by done.
  set (c0 := fresh (dom g2)).
  set (g3 := <[c0 := CModeler {| _models := m0; _associations := a0;
                                 _options := _options (heap_modeler g2 o) |}]> g2).
  rewrite (bind_Ok _ _ g2 g3 c0) by done.
  destruct (cloneFromModeler c0 o g3) as [h' [[]|e]] eqn:Hclone.
  - rewrite (bind_Ok _ _ _ _ _ Hclone). intros [= <- <-].
    assert (m0 ∉ dom h0) as Hm0 by apply fresh_not_dom.
    assert (a0 ∉ dom g1) as Ha0 by apply fresh_not_dom.
    assert (c0 ∉ dom g2) as Hc0 by apply fresh_not_dom.
    assert (dom g1 = {[m0]} ∪ dom h0) as Hd1 by apply dom_insert_L.
    assert (dom g2 = {[a0]} ∪ dom g1) as Hd2 by apply dom_insert_L.
    exists g3. eexists. split; [|split; [|split; [|done]]].
    + intros l Hl. unfold g3, g2, g1.
      rewrite !lookup_insert_ne; [done| | |]; intros ->; set_solver.
    + set_solver.
    + unfold g3. by rewrite lookup_insert_eq.
  - by rewrite (bind_Throw _ _ _ _ _ Hclone).
Qed.

Lemma new_HydraModeler_from_cloning h0 o h1 c :
  new_HydraModeler_from o h0 = (h1, Ok c) → ∃ m a, cloning h0 c m a h1.
Proof.
  intros (g & me & Hext & Hc0 & Hc & Hclone)%new_HydraModeler_from_start.
  by eapply cloneFromModeler_cloning.
Qed.

(** ** What a registry made after [h0] is *)

Section cloned.
Variables (h0 : Heap) (c m a : loc) (h : Heap).
Hypothesis Hcl : cloning h0 c m a h.

Lemma cloning_wf : modeler_wf h c = true.
Proof.
  destruct Hcl as (_ & [opts Hc] & _ & _ & _ & Hma & Hm & Ha & _ & Hinner).
  eapply modeler_wf_intro; [done..|]. cbn [_associations _models].
  rewrite Forall_forall in Hinner. intros inner Hin.
  destruct (Hinner inner Hin) as (? & ? & _ & ? & _). done.
Qed.

Lemma cloning_writable l : writable h c l → l ∉ dom h0.
Proof.
  destruct (cloning_modeler h0 c m a h Hcl) as [Hm Ha].
  destruct Hcl as (_ & _ & _ & Hm0 & Ha0 & _ & _ & _ & _ & Hinner).
  unfold writable. rewrite Hm, Ha. intros [->|[->|Hl]]; [done..|].
  rewrite Forall_forall in Hinner. by destruct (Hinner l Hl) as (_ & _ & ? & _).
Qed.

Lemma cloning_cells : Forall (λ l, (l ∉ dom h0) ∧ l ∈ dom h) (modeler_cells h c).
Proof.
  destruct (cloning_modeler h0 c m a h Hcl) as [Hm Ha].
  destruct Hcl as (_ & [opts Hc] & Hc0 & Hm0 & Ha0 & _ & Hmm & Hma & Hmodels & Hinner).
  unfold modeler_cells. rewrite Hm, Ha.
  repeat apply Forall_cons_2.
  - split; [done | by eapply lookup_dom_Some].
  - split; [done | by apply is_map_dom].
  - split; [done | by apply is_map_dom].
  - rewrite !Forall_app. split; [|split].
    + eapply Forall_impl; [done|]. intros l [? Hl]. split; [done|].
      unfold is_model in Hl. destruct (h !! l) eqn:E; [|done].
      by eapply lookup_dom_Some.
    + eapply Forall_impl; [done|]. intros l (_ & _ & ? & ? & _).
      split; [done | by apply is_map_dom].
    + apply Forall_flat_map. eapply Forall_impl; [done|].
      intros l (_ & _ & _ & _ & Hvals). eapply Forall_impl; [done|].
      intros x (? & e & ? & _). split; [done | by eapply lookup_dom_Some].
Qed.

Lemma cloning_refs : Forall (λ l, l ∉ dom h0) (modeler_refs h c).
Proof.
  unfold modeler_refs. rewrite Forall_app. split.
  - eapply Forall_impl; [apply cloning_cells|]. by intros l [? _].
  - destruct (cloning_modeler h0 c m a h Hcl) as [_ Ha]. rewrite Ha.
    destruct Hcl as (_ & _ & _ & _ & _ & _ & _ & _ & _ & Hinner).
    apply Forall_flat_map. eapply Forall_impl; [done|].
    intros l (_ & _ & _ & _ & Hvals). apply Forall_flat_map.
    eapply Forall_impl; [done|]. intros x (_ & e & He & Hrefs).
    unfold heap_association. by rewrite He.
Qed.
End cloned.

(** The clone of a registry in shape is in shape. *)
Lemma new_HydraModeler_from_inv h0 o h1 c :
  registry_inv h0 o = true →
  new_HydraModeler_from o h0 = (h1, Ok c) →
  registry_inv h1 c = true.
Proof.
  intros Hinv (g & me & Hext & Hc0 & Hc & Hclone)%new_HydraModeler_from_start.
  destruct (cloneFromModeler_named _ _ _ _ _ _ _ Hinv Hext Hc0 Hc Hclone)
    as (m & a & Hcl & Hn).
  destruct (cloning_modeler _ _ _ _ _ Hcl) as [Hm Ha].
  apply registry_inv_intro; [by eapply cloning_wf|].
  rewrite Hm, Ha. intros k l Hin. destruct (Hn k l Hin) as [? ?].
  split; [done|]. split; [done|]. eapply cloning_model; [done|].
  by apply (list_elem_of_fmap_2 snd) in Hin.
Qed.

(** ** A registry depends on its cells only *)

Lemma flat_map_ext_elem {A B} (f g : A → list B) (l : list A) :
  (∀ x, x ∈ l → f x = g x) → flat_map f l = flat_map g l.
Proof.
  induction l as [|x l IH]; intros Hfg; [done|]. cbn [flat_map].
  rewrite Hfg by left. rewrite IH; [done|]. intros; apply Hfg; by right.
Qed.

Lemma elem_of_flat_map_values {A B} (f : A → list B) (l : list A) x y :
  x ∈ l → y ∈ f x → y ∈ flat_map f l.
Proof.
  intros Hx Hy. apply list_elem_of_In, in_flat_map. exists x.
  split; by apply list_elem_of_In.
Qed.

Lemma writable_cells h this l : writable h this l → l ∈ modeler_cells h this.
Proof.
  unfold writable, modeler_cells. intros [->|[->|Hl]].
  - right; left.
  - right; right; left.
  - do 3 right. rewrite !elem_of_app. right; by left.
Qed.

Section agree.
Variables (h h' : Heap) (this : loc).
Hypothesis Hagree : ∀ l, l ∈ modeler_cells h this → h' !! l = h !! l.

Lemma agree_modeler : heap_modeler h' this = heap_modeler h this.
Proof. unfold heap_modeler. rewrite Hagree; [done | left]. Qed.

Lemma agree_models :
  heap_map h' (_models (heap_modeler h this))
  = heap_map h (_models (heap_modeler h this)).
Proof. unfold heap_map. rewrite Hagree; [done | right; left]. Qed.

Lemma agree_outer :
  heap_map h' (_associations (heap_modeler h this))
  = heap_map h (_associations (heap_modeler h this)).
Proof. unfold heap_map. rewrite Hagree; [done | right; right; left]. Qed.

Lemma agree_model l :
  l ∈ dict_values (heap_map h (_models (heap_modeler h this))) →
  h' !! l = h !! l.
Proof.
  intros Hl. apply Hagree. unfold modeler_cells. do 3 right.
  rewrite elem_of_app. by left.
Qed.

Lemma agree_inner l :
  l ∈ dict_values (heap_map h (_associations (heap_modeler h this))) →
  h' !! l = h !! l.
Proof.
  intros Hl. apply Hagree. unfold modeler_cells. do 3 right.
  rewrite !elem_of_app. right; by left.
Qed.

Lemma agree_association inner x :
  inner ∈ dict_values (heap_map h (_associations (heap_modeler h this))) →
  x ∈ dict_values (heap_map h inner) →
  h' !! x = h !! x.
Proof.
  intros Hinner Hx. apply Hagree. unfold modeler_cells. do 3 right.
  rewrite !elem_of_app. right; right.
  by eapply (elem_of_flat_map_values (λ inner, dict_values (heap_map h inner))).
Qed.

Lemma agree_inner_map l :
  l ∈ dict_values (heap_map h (_associations (heap_modeler h this))) →
  heap_map h' l = heap_map h l.
Proof. intros Hl. unfold heap_map. by rewrite agree_inner. Qed.

Lemma agree_view : modeler_view h' this = modeler_view h this.
Proof.
  unfold modeler_view. rewrite agree_modeler, agree_models, agree_outer.
  f_equal; [f_equal|].
  - apply list_fmap_ext. intros i [k l] Hl. cbn [fst snd]. f_equal.
    unfold heap_model. rewrite agree_model; [done|].
    apply list_elem_of_lookup_2 in Hl.
    by apply (list_elem_of_fmap_2 snd) in Hl.
  - apply list_fmap_ext. intros i [k inner] Hl. cbn [fst snd].
    apply list_elem_of_lookup_2, (list_elem_of_fmap_2 snd) in Hl. cbn [snd] in Hl.
    f_equal. rewrite agree_inner_map by done.
    apply list_fmap_ext. intros j [as' x] Hx. cbn [fst snd]. f_equal.
    apply list_elem_of_lookup_2, (list_elem_of_fmap_2 snd) in Hx. cbn [snd] in Hx.
    unfold heap_association. by rewrite (agree_association inner x).
Qed.

Lemma agree_cells : modeler_cells h' this = modeler_cells h this.
Proof.
  unfold modeler_cells. rewrite agree_modeler, agree_models, agree_outer.
  do 5 f_equal. apply flat_map_ext_elem. intros inner Hinner.
  by rewrite agree_inner_map.
Qed.

Lemma agree_refs : modeler_refs h' this = modeler_refs h this.
Proof.
  unfold modeler_refs. rewrite agree_cells, agree_modeler, agree_outer.
  f_equal. apply flat_map_ext_elem. intros inner Hinner.
  rewrite agree_inner_map by done.
  apply flat_map_ext_elem. intros x Hx.
  unfold heap_association. by rewrite (agree_association inner x).
Qed.

Lemma agree_wf : modeler_wf h this = true → modeler_wf h' this = true.
Proof.
  intros Hwf.
  destruct (modeler_wf_inv _ _ Hwf) as (me & Hme & Hhm & Hm & Ha & Hne & Hin).
  subst me. eapply modeler_wf_intro.
  - rewrite Hagree; [done | left].
  - unfold is_map in *. rewrite Hagree; [done | right; left].
  - unfold is_map in *. rewrite Hagree; [done | right; right; left].
  - done.
  - rewrite agree_outer. intros inner Hinner.
    destruct (Hin inner Hinner) as (Hi & ? & ?). split; [|done].
    unfold is_map in *. by rewrite agree_inner.
Qed.
End agree.

Lemma closed_refs_dom h this :
  modeler_closed h this = true → Forall (λ l, l ∈ dom h) (modeler_refs h this).
Proof.
  unfold modeler_closed. rewrite !andb_true_iff. intros [[Hwf Hmodels] Hassocs].
  destruct (modeler_wf_inv _ _ Hwf) as (me & Hme & Hhm & Hm & Ha & Hne & Hin).
  rewrite Hhm in Hmodels, Hassocs.
  rewrite forallb_forall in Hmodels. rewrite forallb_forall in Hassocs.
  unfold modeler_refs, modeler_cells. rewrite Hhm.
  rewrite Forall_app. split.
  - repeat apply Forall_cons_2.
    + by eapply lookup_dom_Some.
    + by apply is_map_dom.
    + by apply is_map_dom.
    + rewrite !Forall_app. split; [|split].
      * apply Forall_forall. intros l Hl%list_elem_of_In%Hmodels.
        unfold is_model in Hl. destruct (h !! l) eqn:E; [|done].
        by eapply lookup_dom_Some.
      * apply Forall_forall. intros l Hl. by apply is_map_dom, Hin.
      * apply Forall_flat_map, Forall_forall. intros inner Hinner%list_elem_of_In.
        apply Hassocs in Hinner. rewrite forallb_forall in Hinner.
        apply Forall_forall. intros x Hx%list_elem_of_In%Hinner.
        unfold heap_association in Hx. destruct (h !! x) eqn:E; [|done].
        by eapply lookup_dom_Some.
  - apply Forall_flat_map, Forall_forall. intros inner Hinner%list_elem_of_In.
    apply Hassocs in Hinner. rewrite forallb_forall in Hinner.
    apply Forall_flat_map, Forall_forall. intros x Hx%list_elem_of_In%Hinner.
    destruct (heap_association h x) as [e|]; [|done].
    rewrite forallb_forall in Hx. apply Forall_forall.
    intros l Hl%list_elem_of_In%Hx. by apply is_map_dom.
Qed.

Lemma closed_cells_dom h this l :
  modeler_closed h this = true → l ∈ modeler_cells h this → l ∈ dom h.
Proof.
  intros Hclosed Hl. pose proof (closed_refs_dom _ _ Hclosed) as Hrefs.
  rewrite Forall_forall in Hrefs. apply Hrefs. unfold modeler_refs.
  rewrite elem_of_app. by left.
Qed.


(** ** The two theorems on the registry at the sample data *)

Lemma first_registration_wins_witness :
  _addModel sample_registry "Customer" (sample_attributes ["code"]) (Some "id")
    sample_store = (sample_store, Ok ()) ∧
  ∃ discarded,
    associate sample_registry "Customer" [duplicate_call] sample_store
    = (<[fresh (dom sample_store) := CAssociation discarded]> sample_store, Ok ()).
Proof.
  assert (modeler_wf sample_store sample_registry = true) as Hwf
    by (vm_compute; reflexivity).
  split.
  - apply (proj1 (first_registration_wins sample_store sample_registry Hwf)).
    vm_compute. reflexivity.
  - eapply (proj2 (proj2 (first_registration_wins sample_store sample_registry Hwf))
              "Customer" duplicate_call).
    + vm_compute. reflexivity.
    + vm_compute. reflexivity.
    + vm_compute. reflexivity.
    + vm_compute. reflexivity.
Defined.

